(** * CRC-32C (Castagnoli) engine of sse4_crc32: src/crc32c.cpp

    A shallow embedding of the table generator [initCrcTable], the
    slicing-by-8 software engine [swCrc32c], the capability detector
    [isSSE42Available] and the dispatcher [calculateCrc], followed by the
    properties the specification states about them. *)

From Stdlib Require Import Strings.String.
From Stdlib Require Import ZArith Arith List Lia Bool.
From Stdlib Require Import Strings.Byte.
Import ListNotations.
Local Open Scope Z_scope.

(** ** Fixed-width unsigned integers

    [uint32_t], [uint64_t] and [size_t] values are integers in [Z]; a store
    into a fixed-width variable wraps modulo the width. *)

Definition u32 (x : Z) : Z := x mod 2 ^ 32.
Definition u64 (x : Z) : Z := x mod 2 ^ 64.

Definition is_u32 (x : Z) : Prop := 0 <= x < 2 ^ 32.
Definition is_u64 (x : Z) : Prop := 0 <= x < 2 ^ 64.
Definition is_u8 (x : Z) : Prop := 0 <= x < 256.

(** [#define CRC32C_POLYNOMIAL 0x82f63b78] *)
Definition CRC32C_POLYNOMIAL : Z := 0x82f63b78.

(** [#define SSE4_2_FLAG 0x100000] *)
Definition SSE4_2_FLAG : Z := 0x100000.

(** ** The lookup table [static uint32_t crc32cTable[8][256]] *)

Definition table : Type := list (list Z).

(** Static storage is zero-initialised before [initCrcTable] runs. *)
Definition crc32cTable_static : table := repeat (repeat 0 256%nat) 8%nat.

(** [t[j][i]] as an rvalue. *)
Definition tbl (t : table) (j : nat) (i : Z) : Z :=
  nth (Z.to_nat i) (nth j t []) 0.

Fixpoint upd {A : Type} (l : list A) (n : nat) (v : A) : list A :=
  match l, n with
  | [], _ => []
  | _ :: l', O => v :: l'
  | x :: l', S n' => x :: upd l' n' v
  end.

(** [t[j][i] = v], the value stored as a [uint32_t]. *)
Definition tbl_set (t : table) (j : nat) (i : Z) (v : Z) : table :=
  upd t j (upd (nth j t []) (Z.to_nat i) (u32 v)).

(** ** Table generator: [initCrcTable] *)

(** One line [crc = crc & 1 ? (crc >> 1) ^ CRC32C_POLYNOMIAL : crc >> 1;]
    on the [uint32_t] variable [crc]. *)
Definition crc_bit (crc : Z) : Z :=
  u32 (if Z.land crc 1 =? 0
       then Z.shiftr crc 1
       else Z.lxor (Z.shiftr crc 1) CRC32C_POLYNOMIAL).

(** Body of the first [for] loop: the eight unrolled lines and the store. *)
Definition init_row0_body (t : table) (i : nat) : table :=
  let crc := u32 (Z.of_nat i) in
  let crc := crc_bit crc in
  let crc := crc_bit crc in
  let crc := crc_bit crc in
  let crc := crc_bit crc in
  let crc := crc_bit crc in
  let crc := crc_bit crc in
  let crc := crc_bit crc in
  let crc := crc_bit crc in
  tbl_set t 0 (Z.of_nat i) crc.

(** Body of the inner loop [for (j = 1; j < 8; j++)]; the state is the
    running [crc] and the table. *)
Definition init_rows_inner (i : nat) (st : Z * table) (j : nat) : Z * table :=
  let '(crc, t) := st in
  let crc := u32 (Z.lxor (tbl t 0 (Z.land crc 0xff)) (Z.shiftr crc 8)) in
  (crc, tbl_set t j (Z.of_nat i) crc).

(** Body of the second outer loop. *)
Definition init_rows_body (t : table) (i : nat) : table :=
  let crc := tbl t 0 (Z.of_nat i) in
  snd (fold_left (init_rows_inner i) (seq 1 7) (crc, t)).

Definition initCrcTable (t : table) : table :=
  let t := fold_left init_row0_body (seq 0 256) t in
  fold_left init_rows_body (seq 0 256) t.

(** The table as the module's [init] leaves it: [initCrcTable()] run once on
    the zero-initialised static array. *)
Definition crc32cTable : table :=
  Eval vm_compute in initCrcTable crc32cTable_static.

(** ** The host

    The build target decides which branch of [cpuid] is compiled; the
    processor decides what the CPUID instruction answers; the ABI decides
    whether plain [char] is signed and in which order the bytes of a
    [uint64_t] lie in memory. *)

Inductive byte_order : Type := LittleEndian | BigEndian.

Inductive target : Type :=
| MSVC                       (* _MSC_VER: the __cpuid intrinsic, x86 and x64 *)
| GNU_x86_64                 (* __x86_64__ *)
| GNU_i386                   (* __i386__ *)
| Generic (o : byte_order).  (* any other architecture *)

Record host : Type := {
  h_target : target;
  h_char_signed : bool;
  (* the CPUID instruction: leaf in eax to (eax, ebx, ecx, edx) *)
  h_cpuid_insn : Z -> Z * Z * Z * Z
}.

Definition host_order (h : host) : byte_order :=
  match h_target h with
  | Generic o => o
  | _ => LittleEndian
  end.

(** ** Capability detector: [cpuid] and [isSSE42Available] *)

(** [void cpuid(uint32_t op, uint32_t reg[4])]; the result is the array. *)
Definition cpuid (h : host) (op : Z) : list Z :=
  match h_target h with
  | MSVC =>
      let '(a, b, c, d) := h_cpuid_insn h 1 in [u32 a; u32 b; u32 c; u32 d]
  | GNU_x86_64 | GNU_i386 =>
      let '(a, b, c, d) := h_cpuid_insn h op in [u32 a; u32 b; u32 c; u32 d]
  | Generic _ => [0; 0; 0; 0]
  end.

Definition isSSE42Available (h : host) : bool :=
  let reg := cpuid h 1 in
  Z.land (Z.shiftr (nth 2 reg 0) 20) 1 =? 1.

(** ** Memory and loads *)

Definition mem : Type := Z -> byte.

Definition byte_val (b : byte) : Z := Z.of_N (Byte.to_N b).

(** The value of [*next] for [const char *next], after integer promotion:
    negative for bytes from 0x80 up where plain [char] is signed. *)
Definition char_val (h : host) (b : byte) : Z :=
  let n := byte_val b in
  if h_char_signed h && (128 <=? n) then n - 256 else n.

(** The integer whose base-256 digits, least significant first, are [bs]. *)
Fixpoint word_of_bytes (bs : list byte) : Z :=
  match bs with
  | [] => 0
  | b :: bs' => Z.lor (byte_val b) (Z.shiftl (word_of_bytes bs') 8)
  end.

Definition load_bytes (m : mem) (a : Z) (n : nat) : list byte :=
  map (fun k => m (a + Z.of_nat k)) (seq 0 n).

(** The load of a [uint64_t] through the cast pointer [next] in the bulk
    loop: the eight bytes at [a], in the host's order. *)
Definition load_u64 (h : host) (m : mem) (a : Z) : Z :=
  match host_order h with
  | LittleEndian => word_of_bytes (load_bytes m a 8)
  | BigEndian => word_of_bytes (rev (load_bytes m a 8))
  end.

(** [store a bs m]: the memory [m] with the bytes [bs] placed from [a] on. *)
Definition store (a : Z) (bs : list byte) (m : mem) : mem :=
  fun x =>
    if (a <=? x) && (x <? a + Z.of_nat (List.length bs))
    then nth (Z.to_nat (x - a)) bs x00
    else m x.

Definition zero_mem : mem := fun _ => x00.

(** ** Software engine: [swCrc32c] *)

(** The local variables [crc], [next] and [len]. *)
Record locals : Type := Locals { l_crc : Z; l_next : Z; l_len : nat }.

Section Engine.
Variable h : host.
Variable t : table.
Variable m : mem.

(** [crc = crc32cTable[0][(crc ^ *next++) & 0xff] ^ (crc >> 8);] with the
    byte [b] read through [next].  The [char] is converted to
    [uint64_t] for the XOR. *)
Definition byte_step (crc : Z) (b : byte) : Z :=
  u64 (Z.lxor (tbl t 0 (Z.land (Z.lxor crc (u64 (char_val h b))) 0xff))
              (Z.shiftr crc 8)).

(** The table fold of the bulk loop, applied to [crc] after the XOR with
    the loaded word. *)
Definition fold8 (crc : Z) : Z :=
  u64 (Z.lxor (Z.lxor (Z.lxor (Z.lxor (Z.lxor (Z.lxor (Z.lxor
        (tbl t 7 (Z.land (Z.shiftr crc 0) 0xff))
        (tbl t 6 (Z.land (Z.shiftr crc 8) 0xff)))
        (tbl t 5 (Z.land (Z.shiftr crc 16) 0xff)))
        (tbl t 4 (Z.land (Z.shiftr crc 24) 0xff)))
        (tbl t 3 (Z.land (Z.shiftr crc 32) 0xff)))
        (tbl t 2 (Z.land (Z.shiftr crc 40) 0xff)))
        (tbl t 1 (Z.land (Z.shiftr crc 48) 0xff)))
        (tbl t 0 (Z.shiftr crc 56))).

(** Body of [while (len >= 8)]. *)
Definition bulk_step (crc next : Z) : Z :=
  let crc := u64 (Z.lxor crc (load_u64 h m next)) in
  fold8 crc.

(** [while (len && ((uintptr_t) next & 7) != 0) { ...; len--; }] *)
Fixpoint leading_loop (len : nat) (crc next : Z) : locals :=
  match len with
  | O => Locals crc next len
  | S len' =>
      if negb (Z.land next 7 =? 0)
      then leading_loop len' (byte_step crc (m next)) (next + 1)
      else Locals crc next len
  end.

(** [while (len >= 8) { ...; next += 8; len -= 8; }] *)
Fixpoint bulk_loop (len : nat) (crc next : Z) : locals :=
  match len with
  | S (S (S (S (S (S (S (S len'))))))) =>
      bulk_loop len' (bulk_step crc next) (next + 8)
  | _ => Locals crc next len
  end.

(** [while (len) { ...; len--; }] *)
Fixpoint trailing_loop (len : nat) (crc next : Z) : locals :=
  match len with
  | O => Locals crc next len
  | S len' => trailing_loop len' (byte_step crc (m next)) (next + 1)
  end.

(** The accumulator after the three loops, before the closing XOR. *)
Definition sw_loops (initialCrc : Z) (buf : Z) (len : nat) : locals :=
  let crc := u64 (Z.lxor initialCrc 0xFFFFFFFF) in
  let s := leading_loop len crc buf in
  let s := bulk_loop (l_len s) (l_crc s) (l_next s) in
  trailing_loop (l_len s) (l_crc s) (l_next s).

(** The 64-bit [crc] as the [return] statements see it: untouched on
    the early return at [len == 0], complemented again after the loops. *)
Definition sw_acc (initialCrc : Z) (buf : Z) (len : nat) : Z :=
  let crc := initialCrc in
  if (len =? 0)%nat then crc
  else
    let s := sw_loops crc buf len in
    u64 (Z.lxor (l_crc s) 0xFFFFFFFF).

(** [uint32_t swCrc32c(uint32_t initialCrc, const char *buf, size_t len)]:
    both returns cast the accumulator to [uint32_t]. *)
Definition swCrc32c (initialCrc : Z) (buf : Z) (len : nat) : Z :=
  u32 (sw_acc initialCrc buf len).

End Engine.

(** ** The loops of [swCrc32c] as a machine

    A state is a loop test about to be evaluated: the entry of a loop, the
    boundary between two of its iterations, or its exit, which is the entry
    of the next loop.  One step evaluates the test and, where it holds, runs
    the body once. *)

Inductive label : Type := AtLeading | AtBulk | AtTrailing | AtReturn.

Record state : Type := State { s_at : label; s_loc : locals }.

Section Machine.
Variable h : host.
Variable t : table.
Variable m : mem.

Definition step (s : state) : option state :=
  let crc := l_crc (s_loc s) in
  let next := l_next (s_loc s) in
  let len := l_len (s_loc s) in
  match s_at s with
  | AtLeading =>
      if negb (len =? 0)%nat && negb (Z.land next 7 =? 0)
      then Some (State AtLeading
                   (Locals (byte_step h t crc (m next)) (next + 1) (len - 1)))
      else Some (State AtBulk (s_loc s))
  | AtBulk =>
      if (8 <=? len)%nat
      then Some (State AtBulk
                   (Locals (bulk_step h t m crc next) (next + 8) (len - 8)))
      else Some (State AtTrailing (s_loc s))
  | AtTrailing =>
      if negb (len =? 0)%nat
      then Some (State AtTrailing
                   (Locals (byte_step h t crc (m next)) (next + 1) (len - 1)))
      else Some (State AtReturn (s_loc s))
  | AtReturn => None
  end.

Inductive steps : state -> state -> Prop :=
| steps_here s : steps s s
| steps_more s s' s'' : step s = Some s' -> steps s' s'' -> steps s s''.

(** The state on entry to the first loop, after [crc ^= 0xFFFFFFFF]. *)
Definition entry (initialCrc buf : Z) (len : nat) : state :=
  State AtLeading (Locals (u64 (Z.lxor initialCrc 0xFFFFFFFF)) buf len).

End Machine.

(** ** Dispatcher: [calculateCrc] *)

(** The JavaScript values [calculateCrc] tells apart.  A number is kept as
    the integer it denotes; a buffer as the address and length that
    [Data()] and [Length()] give. *)
Inductive js_value : Type :=
| JsUndefined
| JsBoolean (b : bool)
| JsNumber (n : Z)
| JsBuffer (data : Z) (length : nat)
| JsObject
| JsString (utf8 : list byte).

Inductive outcome : Type :=
| Returns (n : Z)                   (* Napi::Number::New(env, n) *)
| ThrowsTypeError (msg : string)    (* throw Napi::TypeError::New(env, msg) *)
| ThrowsStringExpected              (* Utf8Value() on a value that is no string *)
| ReturnsIndeterminate.             (* crc returned without having been assigned *)

Section Dispatcher.
Variable h : host.
Variable m : mem.

(** [hwCrc32c] is declared in crc32c.h and defined in crc32c_sse42.cpp;
    the dispatcher is read with it as a parameter. *)
Variable hwCrc32c : Z -> Z -> nat -> Z.

(** [info[i]]: an index past the arguments yields [undefined]. *)
Definition arg (info : list js_value) (i : nat) : js_value :=
  nth i info JsUndefined.

(** [Uint32Value()] of a number. *)
Definition Uint32Value (n : Z) : Z := u32 n.

(** The block choosing [initCrc]: an error, or the initial CRC. *)
Definition initial_crc_of (info : list js_value) : outcome + Z :=
  if (2 <? List.length info)%nat then
    match arg info 2 with
    | JsNumber n => inr (Uint32Value n)
    | _ => inl (ThrowsTypeError
                  "Initial CRC-32C is not an integer value as expected!")
    end
  else inr 0.

(** [Napi::Value calculateCrc(const Napi::CallbackInfo& info)], called once
    [init] has run [initCrcTable()]. *)
Definition calculateCrc (info : list js_value) : outcome :=
  if (List.length info <? 1)%nat then Returns 0
  else if (3 <? List.length info)%nat
  then ThrowsTypeError "Invalid number of arguments!"
  else
    match arg info 0 with
    | JsBoolean useHardwareCrc =>
        match initial_crc_of info with
        | inl e => e
        | inr initCrc =>
            match arg info 1 with
            | JsBuffer data length =>
                (* either call is stored into [uint32_t crc] *)
                let crc :=
                  if useHardwareCrc
                  then u32 (hwCrc32c initCrc data length)
                  else u32 (swCrc32c h crc32cTable m initCrc data length) in
                Returns crc
            | JsObject =>
                ThrowsTypeError "Cannot compute CRC-32C for objects!"
            | JsString _ => ReturnsIndeterminate
            | _ => ThrowsStringExpected
            end
        end
    | _ => ThrowsTypeError "useHardwareCrc isn't a boolean value as expected!"
    end.

End Dispatcher.

(** ** Reference definitions *)

(** [crc_bit] without the store into a 32-bit variable: one step of the
    bit-serial reduction by the reflected polynomial. *)
Definition crc_raw (x : Z) : Z :=
  Z.lxor (Z.shiftr x 1) (if Z.odd x then CRC32C_POLYNOMIAL else 0).

(** One byte folded into the running remainder, bit by bit. *)
Definition crc32c_update (crc : Z) (b : byte) : Z :=
  Nat.iter 8 crc_raw (Z.lxor crc (byte_val b)).

(** The byte-serial CRC-32C remainder of [bs] from [crc]. *)
Definition crc32c_bytes (crc : Z) (bs : list byte) : Z :=
  fold_left crc32c_update bs crc.

(** Modelled from the spec: the hardware engine [hwCrc32c], which
    crc32c.cpp only calls; its definition is in crc32c_sse42.cpp.  The spec
    gives it the signature of the software engine and has it compute the
    CRC-32C checksum of the buffer with the processor's CRC instruction,
    under the same pre/post complement with 0xFFFFFFFF.  The instruction
    folds one byte into the remainder by the reflected Castagnoli
    polynomial ([crc32c_update]). *)
Definition hwCrc32c (m : mem) (initialCrc buf : Z) (len : nat) : Z :=
  Z.lxor (crc32c_bytes (Z.lxor initialCrc 0xFFFFFFFF) (load_bytes m buf len))
         0xFFFFFFFF.

(** The table generator in the spec's words: row 0 by eight rounds of
    "if the low bit is set, shift right one and XOR the polynomial, else
    shift right one"; row [j] from row [j - 1]. *)
Definition spec_round (c : Z) : Z :=
  if Z.testbit c 0 then Z.lxor (Z.shiftr c 1) 0x82F63B78 else Z.shiftr c 1.

(** An 8 x 256 array. *)
Definition table_shape (t : table) : Prop :=
  List.length t = 8%nat /\ Forall (fun r => List.length r = 256%nat) t.

(** What the first loop of [initCrcTable] stores at column [i] of row 0. *)
Definition row0_value (i : nat) : Z := Nat.iter 8 crc_bit (u32 (Z.of_nat i)).

(** What the inner loop stores at row [j], given the table [t] it reads. *)
Definition next_row_value (t : table) (j : nat) (i : Z) : Z :=
  u32 (Z.lxor (tbl t 0 (Z.land (tbl t (j - 1) i) 0xff))
              (Z.shiftr (tbl t (j - 1) i) 8)).

Definition byte_values : list Z := map Z.of_nat (seq 0 256).

(** Entry [i] of row [j] is [i] reduced by [8 * (j + 1)] bits. *)
Definition table_reduces (t : table) : Prop :=
  forall j i, (j < 8)%nat -> is_u8 i ->
    tbl t j i = Nat.iter (8 * S j) crc_raw i.

Definition table_reducesb (t : table) : bool :=
  forallb (fun j =>
    forallb (fun i => tbl t j i =? Nat.iter (8 * S j) crc_raw i) byte_values)
    (seq 0 8).

(** What a loop state still has to produce: the bytes not yet consumed,
    folded into the accumulator. *)
Definition pending (m : mem) (s : locals) : Z :=
  crc32c_bytes (l_crc s) (load_bytes m (l_next s) (l_len s)).

(** [Napi::Value isHardwareCrcSupported(const Napi::CallbackInfo& info)]:
    the arguments are not looked at. *)
Definition isHardwareCrcSupported (h : host) (info : list js_value) : js_value :=
  JsBoolean (isSSE42Available h).

(** The ECX register of a CPUID answer. *)
Definition ecx_of (r : Z * Z * Z * Z) : Z := let '(_, _, c, _) := r in c.

(** The bytes a call may read: the addresses from [buf] up to, not
    including, [buf + len]. *)
Definition in_buffer (buf : Z) (len : nat) (a : Z) : Prop :=
  buf <= a < buf + Z.of_nat len.

(** ** Hosts and buffers used as examples *)

Definition x86_host : host :=
  {| h_target := GNU_x86_64; h_char_signed := true;
     h_cpuid_insn := fun _ => (0, 0, SSE4_2_FLAG, 0) |}.

Definition be_host : host :=
  {| h_target := Generic BigEndian; h_char_signed := false;
     h_cpuid_insn := fun _ => (0, 0, 0, 0) |}.

(** [be_host] with the bytes of a word in the opposite order. *)
Definition le_host : host :=
  {| h_target := Generic LittleEndian; h_char_signed := false;
     h_cpuid_insn := fun _ => (0, 0, 0, 0) |}.

(** The host [h] with plain [char] unsigned. *)
Definition with_unsigned_char (h : host) : host :=
  {| h_target := h_target h; h_char_signed := false;
     h_cpuid_insn := h_cpuid_insn h |}.

(** The ASCII bytes of "123456789". *)
Definition check_string : list byte :=
  [x31; x32; x33; x34; x35; x36; x37; x38; x39].

(** * Bit-level facts *)

Lemma u32_id x : is_u32 x -> u32 x = x.
Proof. unfold is_u32, u32. intros H. apply Z.mod_small. exact H. Qed.

Lemma u64_id x : is_u64 x -> u64 x = x.
Proof. unfold is_u64, u64. intros H. apply Z.mod_small. exact H. Qed.

Lemma is_u32_u64 x : is_u32 x -> is_u64 x.
Proof. unfold is_u32, is_u64. lia. Qed.

Lemma lxor_bound n a b :
  0 <= n -> 0 <= a < 2 ^ n -> 0 <= b < 2 ^ n -> 0 <= Z.lxor a b < 2 ^ n.
Proof.
  intros Hn Ha Hb.
  assert (Hnn : 0 <= Z.lxor a b) by (apply Z.lxor_nonneg; lia).
  split; [exact Hnn|].
  destruct (Z.eq_dec (Z.lxor a b) 0) as [->|Hne].
  - apply Z.pow_pos_nonneg; lia.
  - assert (Hpos : 0 < n).
    { destruct (Z.eq_dec n 0) as [->|]; [|lia].
      change (2 ^ 0) with 1 in *.
      assert (a = 0) by lia. assert (b = 0) by lia. subst.
      elim Hne. reflexivity. }
    apply Z.log2_lt_pow2; [lia|].
    eapply Z.le_lt_trans; [apply Z.log2_lxor; lia|].
    apply Z.max_lub_lt.
    + destruct (Z.eq_dec a 0) as [->|]; [exact Hpos|].
      apply Z.log2_lt_pow2; lia.
    + destruct (Z.eq_dec b 0) as [->|]; [exact Hpos|].
      apply Z.log2_lt_pow2; lia.
Qed.

Lemma shiftr_bound n k a :
  0 <= k -> 0 <= a < 2 ^ n -> 0 <= Z.shiftr a k < 2 ^ n.
Proof.
  intros Hk Ha. rewrite Z.shiftr_div_pow2 by lia.
  assert (0 < 2 ^ k) by (apply Z.pow_pos_nonneg; lia).
  split.
  - apply Z.div_pos; lia.
  - eapply Z.le_lt_trans; [|apply Ha].
    apply Z.div_le_upper_bound; nia.
Qed.

Lemma is_u32_lxor a b : is_u32 a -> is_u32 b -> is_u32 (Z.lxor a b).
Proof. unfold is_u32. intros. apply lxor_bound; lia. Qed.

Lemma is_u64_lxor a b : is_u64 a -> is_u64 b -> is_u64 (Z.lxor a b).
Proof. unfold is_u64. intros. apply lxor_bound; lia. Qed.

Lemma is_u32_shiftr a k : 0 <= k -> is_u32 a -> is_u32 (Z.shiftr a k).
Proof. unfold is_u32. intros. apply shiftr_bound; lia. Qed.

Lemma byte_val_range b : is_u8 (byte_val b).
Proof.
  unfold is_u8, byte_val. pose proof (Byte.to_N_bounded b). lia.
Qed.

Lemma crc_raw_u32 x : is_u32 x -> is_u32 (crc_raw x).
Proof.
  intros Hx. unfold crc_raw. apply is_u32_lxor.
  - apply is_u32_shiftr; [lia | exact Hx].
  - destruct (Z.odd x); unfold is_u32, CRC32C_POLYNOMIAL; lia.
Qed.

Lemma land_1_odd x : (Z.land x 1 =? 0) = negb (Z.odd x).
Proof.
  change 1 with (Z.ones 1) at 1. rewrite Z.land_ones by lia.
  change (2 ^ 1) with 2. rewrite <- Z.bit0_mod, Z.bit0_odd.
  destruct (Z.odd x); reflexivity.
Qed.

Lemma crc_raw_lxor x y : crc_raw (Z.lxor x y) = Z.lxor (crc_raw x) (crc_raw y).
Proof.
  unfold crc_raw. rewrite Z.shiftr_lxor.
  rewrite <- !Z.bit0_odd, Z.lxor_spec.
  apply Z.bits_inj'. intros n Hn. rewrite !Z.lxor_spec.
  destruct (Z.testbit x 0), (Z.testbit y 0); simpl xorb; cbv iota;
    rewrite ?Z.bits_0;
    destruct (Z.testbit (Z.shiftr x 1) n), (Z.testbit (Z.shiftr y 1) n),
      (Z.testbit CRC32C_POLYNOMIAL n); reflexivity.
Qed.

Lemma iter_crc_raw_lxor n x y :
  Nat.iter n crc_raw (Z.lxor x y)
  = Z.lxor (Nat.iter n crc_raw x) (Nat.iter n crc_raw y).
Proof.
  induction n as [|n IH]; simpl; [reflexivity|].
  rewrite IH. apply crc_raw_lxor.
Qed.

Lemma iter_crc_raw_u32 n x : is_u32 x -> is_u32 (Nat.iter n crc_raw x).
Proof.
  intros Hx. induction n as [|n IH]; simpl; [exact Hx|].
  apply crc_raw_u32. exact IH.
Qed.

Lemma iter_add {A} (f : A -> A) n k x :
  Nat.iter (n + k) f x = Nat.iter n f (Nat.iter k f x).
Proof. induction n as [|n IH]; simpl; [reflexivity|]. rewrite IH. reflexivity. Qed.

(** Shifting in a zero bit and reducing once gives the value back. *)
Lemma crc_raw_double y : crc_raw (Z.shiftl y 1) = y.
Proof.
  unfold crc_raw.
  rewrite Z.shiftr_shiftl_l by lia. simpl Z.sub. rewrite Z.shiftl_0_r.
  rewrite <- Z.bit0_odd, Z.shiftl_spec_low by lia.
  apply Z.lxor_0_r.
Qed.

Lemma iter_crc_raw_shiftl n y :
  Nat.iter n crc_raw (Z.shiftl y (Z.of_nat n)) = y.
Proof.
  revert y. induction n as [|n IH]; intros y.
  - simpl. apply Z.shiftl_0_r.
  - replace (S n) with (n + 1)%nat by lia. rewrite iter_add. simpl Nat.iter.
    replace (Z.of_nat (n + 1)) with (Z.of_nat n + 1) by lia.
    rewrite <- Z.shiftl_shiftl by lia.
    rewrite crc_raw_double. apply IH.
Qed.

(** A value is its low byte XOR the rest moved back up. *)
Lemma split_low_byte x :
  x = Z.lxor (Z.land x 0xff) (Z.shiftl (Z.shiftr x 8) 8).
Proof.
  apply Z.bits_inj'. intros n Hn.
  rewrite Z.lxor_spec. change 0xff with (Z.ones 8).
  destruct (Z_lt_le_dec n 8) as [Hlt|Hge].
  - rewrite Z.land_spec, Z.ones_spec_low by lia.
    rewrite Z.shiftl_spec_low by lia.
    rewrite andb_true_r, xorb_false_r. reflexivity.
  - rewrite Z.land_spec, Z.ones_spec_high by lia.
    rewrite Z.shiftl_spec, Z.shiftr_spec by lia.
    rewrite andb_false_r. simpl xorb. f_equal. lia.
Qed.

(** Eight reduction steps consume the low byte and move the rest down:
    the shape of the table step. *)
Lemma iter8_split x :
  Nat.iter 8 crc_raw x
  = Z.lxor (Nat.iter 8 crc_raw (Z.land x 0xff)) (Z.shiftr x 8).
Proof.
  rewrite (split_low_byte x) at 1.
  rewrite iter_crc_raw_lxor.
  f_equal. apply (iter_crc_raw_shiftl 8).
Qed.

Lemma iter_split n x :
  Nat.iter (8 * S n) crc_raw x
  = Z.lxor (Nat.iter (8 * S n) crc_raw (Z.land x 0xff))
           (Nat.iter (8 * n) crc_raw (Z.shiftr x 8)).
Proof.
  replace (8 * S n)%nat with (8 * n + 8)%nat by lia.
  rewrite !iter_add, iter8_split, iter_crc_raw_lxor.
  reflexivity.
Qed.

Lemma land_lxor_distr a b c :
  Z.land (Z.lxor a b) c = Z.lxor (Z.land a c) (Z.land b c).
Proof.
  apply Z.bits_inj'. intros n Hn.
  rewrite !Z.lxor_spec, !Z.land_spec, Z.lxor_spec.
  destruct (Z.testbit a n), (Z.testbit b n), (Z.testbit c n); reflexivity.
Qed.

Lemma land_ff_range x : is_u8 (Z.land x 0xff).
Proof.
  unfold is_u8. change 0xff with (Z.ones 8). rewrite Z.land_ones by lia.
  apply Z.mod_pos_bound. reflexivity.
Qed.

Lemma land_ff_small x : is_u8 x -> Z.land x 0xff = x.
Proof.
  unfold is_u8. intros Hx. change 0xff with (Z.ones 8).
  rewrite Z.land_ones by lia. apply Z.mod_small. exact Hx.
Qed.

Lemma shiftr_small x k : 0 <= k -> 0 <= x < 2 ^ k -> Z.shiftr x k = 0.
Proof.
  intros Hk Hx. rewrite Z.shiftr_div_pow2 by lia. apply Z.div_small. exact Hx.
Qed.

Lemma testbit_byte_high b n : 8 <= n -> Z.testbit (byte_val b) n = false.
Proof.
  intros Hn. pose proof (byte_val_range b) as Hb. unfold is_u8 in Hb.
  rewrite <- (Z.mod_small (byte_val b) (2 ^ 8)) by (change (2 ^ 8) with 256; lia).
  apply Z.mod_pow2_bits_high. lia.
Qed.

(** Sixty-four reduction steps on a 64-bit value, byte by byte. *)
Lemma iter64_bytes x :
  is_u64 x ->
  Nat.iter (8 * 8) crc_raw x
  = Z.lxor (Nat.iter (8 * 8) crc_raw (Z.land x 0xff))
     (Z.lxor (Nat.iter (8 * 7) crc_raw (Z.land (Z.shiftr x 8) 0xff))
     (Z.lxor (Nat.iter (8 * 6) crc_raw (Z.land (Z.shiftr x 16) 0xff))
     (Z.lxor (Nat.iter (8 * 5) crc_raw (Z.land (Z.shiftr x 24) 0xff))
     (Z.lxor (Nat.iter (8 * 4) crc_raw (Z.land (Z.shiftr x 32) 0xff))
     (Z.lxor (Nat.iter (8 * 3) crc_raw (Z.land (Z.shiftr x 40) 0xff))
     (Z.lxor (Nat.iter (8 * 2) crc_raw (Z.land (Z.shiftr x 48) 0xff))
             (Nat.iter (8 * 1) crc_raw (Z.land (Z.shiftr x 56) 0xff)))))))).
Proof.
  intros Hx.
  rewrite (iter_split 7 x).
  rewrite (iter_split 6 (Z.shiftr x 8)), (Z.shiftr_shiftr x 8 8) by lia.
  rewrite (iter_split 5 (Z.shiftr x (8 + 8))), (Z.shiftr_shiftr x (8 + 8) 8) by lia.
  rewrite (iter_split 4 (Z.shiftr x (8 + 8 + 8))), (Z.shiftr_shiftr x (8 + 8 + 8) 8) by lia.
  rewrite (iter_split 3 (Z.shiftr x (8 + 8 + 8 + 8))),
    (Z.shiftr_shiftr x (8 + 8 + 8 + 8) 8) by lia.
  rewrite (iter_split 2 (Z.shiftr x (8 + 8 + 8 + 8 + 8))),
    (Z.shiftr_shiftr x (8 + 8 + 8 + 8 + 8) 8) by lia.
  rewrite (iter_split 1 (Z.shiftr x (8 + 8 + 8 + 8 + 8 + 8))),
    (Z.shiftr_shiftr x (8 + 8 + 8 + 8 + 8 + 8) 8) by lia.
  rewrite (iter_split 0 (Z.shiftr x (8 + 8 + 8 + 8 + 8 + 8 + 8))),
    (Z.shiftr_shiftr x (8 + 8 + 8 + 8 + 8 + 8 + 8) 8) by lia.
  change (Nat.iter (8 * 0) crc_raw ?y) with y.
  rewrite (shiftr_small x (8 + 8 + 8 + 8 + 8 + 8 + 8 + 8)) by (unfold is_u64 in Hx; simpl Z.add; lia).
  rewrite Z.lxor_0_r. reflexivity.
Qed.

(** The digits of [word_of_bytes] do not overlap, so OR is XOR. *)
Lemma word_of_bytes_cons b bs :
  word_of_bytes (b :: bs)
  = Z.lxor (byte_val b) (Z.shiftl (word_of_bytes bs) 8).
Proof.
  cbn [word_of_bytes]. symmetry. apply Z.lxor_lor.
  apply Z.bits_inj'. intros n Hn. rewrite Z.land_spec, Z.bits_0.
  destruct (Z_lt_le_dec n 8).
  - rewrite Z.shiftl_spec_low by lia. apply andb_false_r.
  - rewrite testbit_byte_high by lia. reflexivity.
Qed.

Lemma word_of_bytes_bound bs :
  0 <= word_of_bytes bs < 2 ^ (8 * Z.of_nat (List.length bs)).
Proof.
  induction bs as [|b bs IH].
  - simpl. lia.
  - rewrite word_of_bytes_cons.
    pose proof (byte_val_range b) as Hb. unfold is_u8 in Hb.
    replace (8 * Z.of_nat (List.length (b :: bs)))
      with (8 * Z.of_nat (List.length bs) + 8) by (simpl length; lia).
    set (k := 8 * Z.of_nat (List.length bs)) in *.
    assert (Hk : 0 <= k) by (unfold k; lia).
    assert (H8 : 2 ^ (k + 8) = 2 ^ k * 256) by (rewrite Z.pow_add_r by lia; reflexivity).
    assert (0 < 2 ^ k) by (apply Z.pow_pos_nonneg; lia).
    apply lxor_bound; [lia | nia |].
    rewrite Z.shiftl_mul_pow2 by lia. change (2 ^ 8) with 256. nia.
Qed.

(** * The byte-serial CRC-32C *)

Lemma crc32c_update_eq crc b :
  crc32c_update crc b = Nat.iter 8 crc_raw (Z.lxor crc (byte_val b)).
Proof. unfold crc32c_update. reflexivity. Qed.

Lemma byte_val_u32 b : is_u32 (byte_val b).
Proof. pose proof (byte_val_range b). unfold is_u8, is_u32 in *. lia. Qed.

Lemma crc32c_update_u32 c b : is_u32 c -> is_u32 (crc32c_update c b).
Proof.
  intros Hc. apply iter_crc_raw_u32.
  apply is_u32_lxor; [exact Hc | apply byte_val_u32].
Qed.

Lemma crc32c_bytes_cons c b bs :
  crc32c_bytes c (b :: bs) = crc32c_bytes (crc32c_update c b) bs.
Proof. reflexivity. Qed.

Lemma crc32c_bytes_u32 bs : forall c, is_u32 c -> is_u32 (crc32c_bytes c bs).
Proof.
  induction bs as [|b bs IH]; intros c Hc.
  - exact Hc.
  - rewrite crc32c_bytes_cons. apply IH. apply crc32c_update_u32. exact Hc.
Qed.

Lemma crc32c_bytes_app c xs ys :
  crc32c_bytes c (xs ++ ys) = crc32c_bytes (crc32c_bytes c xs) ys.
Proof. unfold crc32c_bytes. apply fold_left_app. Qed.

(** Reducing a word eight bits per byte is folding its bytes in, least
    significant first. *)
Lemma word_fold bs : forall c,
  Nat.iter (8 * List.length bs) crc_raw (Z.lxor c (word_of_bytes bs))
  = crc32c_bytes c bs.
Proof.
  induction bs as [|b bs IH]; intros c.
  - cbn [List.length word_of_bytes]. change (8 * 0)%nat with 0%nat.
    cbn [Nat.iter nat_rect]. apply Z.lxor_0_r.
  - rewrite word_of_bytes_cons, <- Z.lxor_assoc, crc32c_bytes_cons.
    replace (8 * List.length (b :: bs))%nat with (8 * List.length bs + 8)%nat
      by (cbn [List.length]; lia).
    rewrite iter_add, iter_crc_raw_lxor.
    rewrite (iter_crc_raw_shiftl 8).
    rewrite <- IH, crc32c_update_eq. reflexivity.
Qed.

(** * The generated table *)

Lemma in_byte_values i : is_u8 i -> In i byte_values.
Proof.
  unfold is_u8, byte_values. intros Hi. apply in_map_iff.
  exists (Z.to_nat i). split; [lia | apply in_seq; lia].
Qed.

Lemma table_reducesb_sound t : table_reducesb t = true -> table_reduces t.
Proof.
  unfold table_reducesb, table_reduces. intros H j i Hj Hi.
  rewrite forallb_forall in H.
  assert (Hin : In j (seq 0 8)) by (apply in_seq; lia).
  specialize (H j Hin). rewrite forallb_forall in H.
  apply Z.eqb_eq. apply H. apply in_byte_values. exact Hi.
Qed.

Lemma crc32cTable_reduces : table_reduces crc32cTable.
Proof. apply table_reducesb_sound. vm_compute. reflexivity. Qed.

Lemma table_entry_u32 t j i :
  table_reduces t -> (j < 8)%nat -> is_u8 i -> is_u32 (tbl t j i).
Proof.
  intros Ht Hj Hi. rewrite Ht by assumption.
  apply iter_crc_raw_u32. unfold is_u8, is_u32 in *. lia.
Qed.

(** * The software engine, loop by loop *)

Section EngineFacts.
Variable h : host.
Variable t : table.
Variable m : mem.
Hypothesis Ht : table_reduces t.

(** The index of the byte step sees only the low eight bits of the
    converted [char], which are the byte's own whatever its sign. *)
Lemma byte_index_unsigned crc b :
  Z.land (Z.lxor crc (u64 (char_val h b))) 0xff
  = Z.land (Z.lxor crc (byte_val b)) 0xff.
Proof.
  rewrite !land_lxor_distr. f_equal.
  change 0xff with (Z.ones 8). rewrite !Z.land_ones by lia.
  unfold u64, char_val.
  rewrite Z.mod_mod_divide by (exists (2 ^ 56); reflexivity).
  destruct (h_char_signed h && (128 <=? byte_val b)); [|reflexivity].
  replace (byte_val b - 256) with (byte_val b + (-1) * 2 ^ 8) by (change (2 ^ 8) with 256; lia).
  apply Z.mod_add. discriminate.
Qed.

Lemma byte_step_update crc b :
  is_u32 crc -> byte_step h t crc b = crc32c_update crc b.
Proof.
  intros Hc. pose proof (crc32c_update_u32 crc b Hc) as Hu.
  rewrite crc32c_update_eq in *. unfold byte_step.
  rewrite byte_index_unsigned.
  rewrite (Ht 0%nat _ ltac:(lia) (land_ff_range _)).
  replace (8 * 1)%nat with 8%nat by reflexivity.
  replace (Z.shiftr crc 8) with (Z.shiftr (Z.lxor crc (byte_val b)) 8).
  - rewrite <- iter8_split. apply u64_id, is_u32_u64. exact Hu.
  - rewrite Z.shiftr_lxor.
    rewrite (shiftr_small (byte_val b) 8) by (pose proof (byte_val_range b); unfold is_u8 in *; change (2 ^ 8) with 256; lia).
    apply Z.lxor_0_r.
Qed.

Lemma shiftr56_u8 x : is_u64 x -> is_u8 (Z.shiftr x 56).
Proof.
  unfold is_u8, is_u64. intros Hx. rewrite Z.shiftr_div_pow2 by lia.
  split; [apply Z.div_pos; lia|].
  apply Z.div_lt_upper_bound; [reflexivity|].
  change (2 ^ 56 * 256) with (2 ^ 64). lia.
Qed.

(** The XOR of the eight entries is a 32-bit value whatever word was
    loaded. *)
Lemma fold8_xor_u32 x :
  is_u64 x ->
  is_u32
    (Z.lxor (Z.lxor (Z.lxor (Z.lxor (Z.lxor (Z.lxor (Z.lxor
      (tbl t 7 (Z.land (Z.shiftr x 0) 0xff))
      (tbl t 6 (Z.land (Z.shiftr x 8) 0xff)))
      (tbl t 5 (Z.land (Z.shiftr x 16) 0xff)))
      (tbl t 4 (Z.land (Z.shiftr x 24) 0xff)))
      (tbl t 3 (Z.land (Z.shiftr x 32) 0xff)))
      (tbl t 2 (Z.land (Z.shiftr x 40) 0xff)))
      (tbl t 1 (Z.land (Z.shiftr x 48) 0xff)))
      (tbl t 0 (Z.shiftr x 56))).
Proof.
  intros Hx. pose proof (shiftr56_u8 x Hx) as H56.
  repeat apply is_u32_lxor;
    apply table_entry_u32; auto using land_ff_range; lia.
Qed.

(** The eight lookups of the bulk loop reduce the whole 64-bit word by
    64 bits. *)
Lemma fold8_reduce x : is_u64 x -> fold8 t x = Nat.iter (8 * 8) crc_raw x.
Proof.
  intros Hx. unfold fold8.
  rewrite (u64_id _ (is_u32_u64 _ (fold8_xor_u32 x Hx))).
  pose proof (shiftr56_u8 x Hx) as H56.
  rewrite !Ht by (auto using land_ff_range; lia).
  rewrite Z.shiftr_0_r, (iter64_bytes x Hx), (land_ff_small _ H56).
  rewrite !Z.lxor_assoc. reflexivity.
Qed.

Lemma load_bytes_length a n : List.length (load_bytes m a n) = n.
Proof. unfold load_bytes. rewrite length_map, length_seq. reflexivity. Qed.

Lemma load_bytes_S a n :
  load_bytes m a (S n) = m a :: load_bytes m (a + 1) n.
Proof.
  unfold load_bytes. cbn [seq map]. rewrite <- seq_shift, map_map.
  rewrite Z.add_0_r. f_equal. apply map_ext. intros k. f_equal. lia.
Qed.

Lemma load_bytes_app a n k :
  load_bytes m a (n + k)
  = load_bytes m a n ++ load_bytes m (a + Z.of_nat n) k.
Proof.
  revert a. induction n as [|n IH]; intros a.
  - simpl. rewrite Z.add_0_r. reflexivity.
  - change (S n + k)%nat with (S (n + k)). rewrite !load_bytes_S, IH.
    simpl. do 3 f_equal. lia.
Qed.

Lemma byte_step_u32 crc b : is_u32 crc -> is_u32 (byte_step h t crc b).
Proof.
  intros Hc. rewrite byte_step_update by exact Hc.
  apply crc32c_update_u32. exact Hc.
Qed.

Lemma u64_range x : is_u64 (u64 x).
Proof. unfold is_u64, u64. apply Z.mod_pos_bound. reflexivity. Qed.

Lemma u32_range x : is_u32 (u32 x).
Proof. unfold is_u32, u32. apply Z.mod_pos_bound. reflexivity. Qed.

Lemma fold8_u32 x : is_u64 x -> is_u32 (fold8 t x).
Proof.
  intros Hx. unfold fold8.
  rewrite u64_id; [|apply is_u32_u64]; apply fold8_xor_u32; exact Hx.
Qed.

Lemma bulk_step_u32 crc next : is_u32 (bulk_step h t m crc next).
Proof. unfold bulk_step. apply fold8_u32, u64_range. Qed.

(** ** The machine keeps the accumulator within 32 bits and computes what
    the loops compute *)

Lemma step_keeps_u32 s s' :
  is_u32 (l_crc (s_loc s)) -> step h t m s = Some s' ->
  is_u32 (l_crc (s_loc s')).
Proof.
  destruct s as [l [crc next len]]. unfold step. cbn [s_at s_loc l_crc l_next l_len].
  intros Hc Hs.
  destruct l;
    [ destruct (negb (len =? 0)%nat && negb (Z.land next 7 =? 0))
    | destruct (8 <=? len)%nat
    | destruct (negb (len =? 0)%nat)
    | discriminate Hs ];
    injection Hs as <-; cbn [s_loc l_crc];
    auto using byte_step_u32, bulk_step_u32.
Qed.

Lemma steps_keep_u32 s s' :
  steps h t m s s' -> is_u32 (l_crc (s_loc s)) -> is_u32 (l_crc (s_loc s')).
Proof.
  induction 1 as [s | s s1 s2 Hstep _ IH]; intros Hc.
  - exact Hc.
  - apply IH. eapply step_keeps_u32; eassumption.
Qed.

Lemma steps_trans s1 s2 s3 :
  steps h t m s1 s2 -> steps h t m s2 s3 -> steps h t m s1 s3.
Proof.
  induction 1 as [s | s s1 s2 Hstep _ IH]; intros H23.
  - exact H23.
  - eapply steps_more; [exact Hstep | apply IH; exact H23].
Qed.

Lemma leading_run len : forall crc next,
  steps h t m (State AtLeading (Locals crc next len))
              (State AtBulk (leading_loop h t m len crc next)).
Proof.
  induction len as [|len IH]; intros crc next; cbn [leading_loop].
  - eapply steps_more; [reflexivity | apply steps_here].
  - destruct (negb (Z.land next 7 =? 0)) eqn:E.
    + eapply steps_more; [|apply IH].
      unfold step. cbn [s_at s_loc l_crc l_next l_len Nat.eqb negb andb].
      rewrite E. cbn [Nat.sub]. rewrite Nat.sub_0_r. reflexivity.
    + eapply steps_more; [|apply steps_here].
      unfold step. cbn [s_at s_loc l_crc l_next l_len Nat.eqb negb andb].
      rewrite E. reflexivity.
Qed.

Lemma bulk_run len : forall crc next,
  steps h t m (State AtBulk (Locals crc next len))
              (State AtTrailing (bulk_loop h t m len crc next)).
Proof.
  induction len as [len IH] using lt_wf_ind. intros crc next.
  destruct len as [|[|[|[|[|[|[|[|len']]]]]]]]; cbn [bulk_loop];
    try (eapply steps_more; [reflexivity | apply steps_here]).
  eapply steps_more; [|apply IH; lia].
  unfold step. cbn [s_at s_loc l_crc l_next l_len Nat.leb Nat.sub].
  rewrite Nat.sub_0_r. reflexivity.
Qed.

Lemma trailing_run len : forall crc next,
  steps h t m (State AtTrailing (Locals crc next len))
              (State AtReturn (trailing_loop h t m len crc next)).
Proof.
  induction len as [|len IH]; intros crc next; cbn [trailing_loop].
  - eapply steps_more; [reflexivity | apply steps_here].
  - eapply steps_more; [|apply IH].
    unfold step. cbn [s_at s_loc l_crc l_next l_len Nat.eqb negb Nat.sub].
    rewrite Nat.sub_0_r. reflexivity.
Qed.

Lemma locals_eta s : Locals (l_crc s) (l_next s) (l_len s) = s.
Proof. destruct s. reflexivity. Qed.

Lemma machine_run seed buf len :
  steps h t m (entry seed buf len)
              (State AtReturn (sw_loops h t m seed buf len)).
Proof.
  unfold entry, sw_loops.
  eapply steps_trans; [apply leading_run|].
  rewrite <- (locals_eta (leading_loop h t m len _ buf)) at 1.
  eapply steps_trans; [apply bulk_run|].
  rewrite <- (locals_eta (bulk_loop h t m _ _ _)) at 1.
  apply trailing_run.
Qed.

Hypothesis Hle : host_order h = LittleEndian.

(** On a little-endian host one bulk iteration is eight byte steps. *)
Lemma bulk_step_update crc next :
  is_u32 crc ->
  bulk_step h t m crc next = crc32c_bytes crc (load_bytes m next 8).
Proof.
  intros Hc. unfold bulk_step, load_u64. rewrite Hle.
  pose proof (word_of_bytes_bound (load_bytes m next 8)) as Hw.
  rewrite load_bytes_length in Hw. change (2 ^ (8 * Z.of_nat 8)) with (2 ^ 64) in Hw.
  assert (Hx : is_u64 (Z.lxor crc (word_of_bytes (load_bytes m next 8)))).
  { apply is_u64_lxor; [apply is_u32_u64; exact Hc | exact Hw]. }
  rewrite (u64_id _ Hx), (fold8_reduce _ Hx).
  rewrite <- word_fold, load_bytes_length. reflexivity.
Qed.

Lemma leading_loop_spec len : forall crc next,
  is_u32 crc ->
  is_u32 (l_crc (leading_loop h t m len crc next))
  /\ pending m (leading_loop h t m len crc next)
     = crc32c_bytes crc (load_bytes m next len).
Proof.
  induction len as [|len IH]; intros crc next Hc; cbn [leading_loop].
  - split; [exact Hc | reflexivity].
  - destruct (negb (Z.land next 7 =? 0)).
    + rewrite load_bytes_S, crc32c_bytes_cons, <- byte_step_update by exact Hc.
      apply IH. apply byte_step_u32. exact Hc.
    + split; [exact Hc | reflexivity].
Qed.

Lemma bulk_loop_spec len : forall crc next,
  is_u32 crc ->
  is_u32 (l_crc (bulk_loop h t m len crc next))
  /\ pending m (bulk_loop h t m len crc next)
     = crc32c_bytes crc (load_bytes m next len).
Proof.
  induction len as [len IH] using lt_wf_ind. intros crc next Hc.
  destruct len as [|[|[|[|[|[|[|[|len']]]]]]]]; cbn [bulk_loop];
    try (split; [exact Hc | reflexivity]).
  change (S (S (S (S (S (S (S (S len')))))))) with (8 + len')%nat.
  rewrite load_bytes_app, crc32c_bytes_app, <- bulk_step_update by exact Hc.
  apply IH; [lia | apply bulk_step_u32; exact Hc].
Qed.

Lemma trailing_loop_spec len : forall crc next,
  is_u32 crc ->
  l_crc (trailing_loop h t m len crc next)
  = crc32c_bytes crc (load_bytes m next len).
Proof.
  induction len as [|len IH]; intros crc next Hc; cbn [trailing_loop].
  - reflexivity.
  - rewrite load_bytes_S, crc32c_bytes_cons, <- byte_step_update by exact Hc.
    apply IH. apply byte_step_u32. exact Hc.
Qed.

Lemma complement_u32 x : is_u32 x -> is_u32 (Z.lxor x 0xFFFFFFFF).
Proof. intros Hx. apply is_u32_lxor; [exact Hx | unfold is_u32; lia]. Qed.

Lemma sw_loops_bytes seed buf len :
  is_u32 seed ->
  l_crc (sw_loops h t m seed buf len)
  = crc32c_bytes (Z.lxor seed 0xFFFFFFFF) (load_bytes m buf len).
Proof.
  intros Hseed. unfold sw_loops.
  pose proof (complement_u32 seed Hseed) as Hc.
  rewrite (u64_id _ (is_u32_u64 _ Hc)).
  destruct (leading_loop_spec len _ buf Hc) as [H1 E1].
  destruct (bulk_loop_spec (l_len (leading_loop h t m len (Z.lxor seed 0xFFFFFFFF) buf))
              _ (l_next (leading_loop h t m len (Z.lxor seed 0xFFFFFFFF) buf)) H1)
    as [H2 E2].
  rewrite trailing_loop_spec by exact H2.
  fold (pending m (bulk_loop h t m
    (l_len (leading_loop h t m len (Z.lxor seed 0xFFFFFFFF) buf))
    (l_crc (leading_loop h t m len (Z.lxor seed 0xFFFFFFFF) buf))
    (l_next (leading_loop h t m len (Z.lxor seed 0xFFFFFFFF) buf)))).
  rewrite E2. exact E1.
Qed.

(** On a little-endian host the engine is the byte-serial CRC-32C of the
    bytes it is given, between the two complements. *)
Lemma swCrc32c_bytes seed buf len :
  is_u32 seed ->
  swCrc32c h t m seed buf len
  = Z.lxor (crc32c_bytes (Z.lxor seed 0xFFFFFFFF) (load_bytes m buf len))
           0xFFFFFFFF.
Proof.
  intros Hseed. unfold swCrc32c, sw_acc. destruct len as [|len]; cbn [Nat.eqb].
  - cbn [load_bytes seq map]. unfold crc32c_bytes. cbn [fold_left].
    rewrite Z.lxor_assoc, Z.lxor_nilpotent, Z.lxor_0_r.
    apply u32_id. exact Hseed.
  - rewrite sw_loops_bytes by exact Hseed.
    assert (Hr : is_u32 (Z.lxor (crc32c_bytes (Z.lxor seed 0xFFFFFFFF)
                                   (load_bytes m buf (S len))) 0xFFFFFFFF)).
    { apply complement_u32, crc32c_bytes_u32, complement_u32. exact Hseed. }
    rewrite (u64_id _ (is_u32_u64 _ Hr)). apply u32_id. exact Hr.
Qed.

End EngineFacts.

(** * Buffers placed in memory *)

Lemma store_at a xs y ys m :
  store a (xs ++ y :: ys) m (a + Z.of_nat (List.length xs)) = y.
Proof.
  unfold store. rewrite length_app. cbn [List.length].
  replace ((a <=? a + Z.of_nat (List.length xs))
           && (a + Z.of_nat (List.length xs)
               <? a + Z.of_nat (List.length xs + S (List.length ys))))
    with true by (symmetry; apply andb_true_iff; split;
                  [apply Z.leb_le | apply Z.ltb_lt]; lia).
  replace (Z.to_nat (a + Z.of_nat (List.length xs) - a)) with (List.length xs) by lia.
  apply nth_middle.
Qed.

(** A buffer stored behind a prefix is read back from where it starts. *)
Lemma load_bytes_store ys : forall a xs m,
  load_bytes (store a (xs ++ ys) m) (a + Z.of_nat (List.length xs)) (List.length ys)
  = ys.
Proof.
  induction ys as [|y ys IH]; intros a xs m.
  - reflexivity.
  - cbn [List.length]. rewrite load_bytes_S, store_at. f_equal.
    replace (xs ++ y :: ys) with ((xs ++ [y]) ++ ys)
      by (rewrite <- app_assoc; reflexivity).
    replace (a + Z.of_nat (List.length xs) + 1)
      with (a + Z.of_nat (List.length (xs ++ [y])))
      by (rewrite length_app; cbn [List.length]; lia).
    apply IH.
Qed.

Lemma load_bytes_store0 bs a m :
  load_bytes (store a bs m) a (List.length bs) = bs.
Proof.
  pose proof (load_bytes_store bs a [] m) as H.
  cbn [List.length app Z.of_nat] in H. rewrite Z.add_0_r in H. exact H.
Qed.

Lemma crc32cTable_eq : initCrcTable crc32cTable_static = crc32cTable.
Proof. vm_compute. reflexivity. Qed.

Lemma double_complement x : Z.lxor (Z.lxor x 0xFFFFFFFF) 0xFFFFFFFF = x.
Proof. rewrite Z.lxor_assoc, Z.lxor_nilpotent. apply Z.lxor_0_r. Qed.

Lemma is_u32_0 : is_u32 0.
Proof. unfold is_u32. lia. Qed.

Lemma sse42_little_endian h :
  isSSE42Available h = true -> host_order h = LittleEndian.
Proof.
  unfold isSSE42Available, cpuid, host_order.
  destruct (h_target h); try reflexivity.
  cbn. discriminate.
Qed.

Lemma swCrc32c_le h m seed buf len :
  host_order h = LittleEndian -> is_u32 seed ->
  swCrc32c h crc32cTable m seed buf len
  = Z.lxor (crc32c_bytes (Z.lxor seed 0xFFFFFFFF) (load_bytes m buf len))
           0xFFFFFFFF.
Proof.
  intros Hle Hseed. apply swCrc32c_bytes; auto using crc32cTable_reduces.
Qed.

Lemma swCrc32c_u32 h t m seed buf len : is_u32 (swCrc32c h t m seed buf len).
Proof. unfold swCrc32c. apply u32_range. Qed.

(** * The table generator, loop by loop *)

Lemma upd_length {A} (l : list A) : forall n v,
  List.length (upd l n v) = List.length l.
Proof.
  induction l as [|x l IH]; intros [|n] v; cbn [upd List.length];
    try reflexivity.
  rewrite IH. reflexivity.
Qed.

Lemma nth_upd_same {A} (l : list A) : forall n v d,
  (n < List.length l)%nat -> nth n (upd l n v) d = v.
Proof.
  induction l as [|x l IH]; intros [|n] v d Hn; cbn [List.length] in Hn;
    cbn [upd nth]; try lia; try reflexivity.
  apply IH. lia.
Qed.

Lemma nth_upd_other {A} (l : list A) : forall n k v d,
  n <> k -> nth k (upd l n v) d = nth k l d.
Proof.
  induction l as [|x l IH]; intros [|n] [|k] v d Hnk; cbn [upd nth];
    try reflexivity; try (elim Hnk; reflexivity).
  apply IH. intros E. apply Hnk. rewrite E. reflexivity.
Qed.

Lemma Forall_upd {A} (P : A -> Prop) (l : list A) : forall n v,
  Forall P l -> P v -> Forall P (upd l n v).
Proof.
  induction l as [|x l IH]; intros [|n] v Hl Hv; cbn [upd];
    try exact Hl; inversion Hl; subst; constructor; auto.
Qed.

Lemma shape_row t j :
  table_shape t -> (j < 8)%nat -> List.length (nth j t []) = 256%nat.
Proof.
  intros [Hlen Hrows] Hj. rewrite Forall_forall in Hrows.
  apply Hrows. apply nth_In. lia.
Qed.

Lemma tbl_set_shape t j i v :
  table_shape t -> (j < 8)%nat -> table_shape (tbl_set t j i v).
Proof.
  intros Ht Hj. pose proof (shape_row t j Ht Hj) as Hrow.
  destruct Ht as [Hlen Hrows]. unfold tbl_set. split.
  - rewrite upd_length. exact Hlen.
  - apply Forall_upd; [exact Hrows|]. rewrite upd_length. exact Hrow.
Qed.

Lemma tbl_set_same t j i v :
  table_shape t -> (j < 8)%nat -> is_u8 i ->
  tbl (tbl_set t j i v) j i = u32 v.
Proof.
  intros Ht Hj Hi. pose proof (shape_row t j Ht Hj) as Hrow.
  destruct Ht as [Hlen _]. unfold tbl, tbl_set, is_u8 in *.
  rewrite nth_upd_same by lia. apply nth_upd_same. lia.
Qed.

Lemma tbl_set_other_row t j i v j' i' :
  j <> j' -> tbl (tbl_set t j i v) j' i' = tbl t j' i'.
Proof.
  intros Hj. unfold tbl, tbl_set. rewrite nth_upd_other by exact Hj.
  reflexivity.
Qed.

Lemma tbl_set_other_col t j i v j' i' :
  table_shape t -> (j < 8)%nat -> Z.to_nat i <> Z.to_nat i' ->
  tbl (tbl_set t j i v) j' i' = tbl t j' i'.
Proof.
  intros [Hlen _] Hj Hi. destruct (Nat.eq_dec j j') as [<-|Hne].
  - unfold tbl, tbl_set. rewrite nth_upd_same by lia.
    apply nth_upd_other. exact Hi.
  - apply tbl_set_other_row. exact Hne.
Qed.

Lemma init_row0_body_eq t i :
  init_row0_body t i = tbl_set t 0 (Z.of_nat i) (row0_value i).
Proof.
  unfold init_row0_body, row0_value. cbv zeta.
  cbn [Nat.iter nat_rect]. reflexivity.
Qed.

(** The first loop, after [n] iterations. *)
Lemma init_row0_loop n : forall t,
  table_shape t -> (n <= 256)%nat ->
  table_shape (fold_left init_row0_body (seq 0 n) t)
  /\ forall i, (i < n)%nat ->
       tbl (fold_left init_row0_body (seq 0 n) t) 0 (Z.of_nat i)
       = u32 (row0_value i).
Proof.
  induction n as [|n IH]; intros t Ht Hn.
  - split; [exact Ht | intros i Hi; lia].
  - rewrite seq_S, fold_left_app. cbn [fold_left Nat.add].
    destruct (IH t Ht ltac:(lia)) as [Hshape Hrow].
    set (tn := fold_left init_row0_body (seq 0 n) t) in *.
    rewrite init_row0_body_eq. split.
    + apply tbl_set_shape; [exact Hshape | lia].
    + intros i Hi. destruct (Nat.eq_dec i n) as [->|Hne].
      * apply tbl_set_same; [exact Hshape | lia | unfold is_u8; lia].
      * rewrite tbl_set_other_col by (try exact Hshape; lia).
        apply Hrow. lia.
Qed.

Lemma init_rows_inner_eq i crc t j :
  init_rows_inner i (crc, t) j
  = (u32 (Z.lxor (tbl t 0 (Z.land crc 0xff)) (Z.shiftr crc 8)),
     tbl_set t j (Z.of_nat i)
       (u32 (Z.lxor (tbl t 0 (Z.land crc 0xff)) (Z.shiftr crc 8)))).
Proof. unfold init_rows_inner. cbv zeta. reflexivity. Qed.

Lemma u32_u32 x : u32 (u32 x) = u32 x.
Proof. unfold u32. apply Z.mod_mod. discriminate. Qed.

(** The inner loop at column [i], after rows 1..[k]. *)
Lemma init_rows_inner_loop i k : forall t,
  table_shape t -> (i < 256)%nat -> (k <= 7)%nat ->
  let st := fold_left (init_rows_inner i) (seq 1 k) (tbl t 0 (Z.of_nat i), t) in
  table_shape (snd st)
  /\ fst st = tbl (snd st) k (Z.of_nat i)
  /\ (forall j' i', Z.to_nat i' <> i -> tbl (snd st) j' i' = tbl t j' i')
  /\ (forall i', tbl (snd st) 0 i' = tbl t 0 i')
  /\ (forall j, (1 <= j <= k)%nat ->
        tbl (snd st) j (Z.of_nat i) = next_row_value (snd st) j (Z.of_nat i)).
Proof.
  induction k as [|k IH]; intros t Ht Hi Hk; cbv zeta.
  - cbn [seq fold_left fst snd].
    split; [exact Ht|]. split; [reflexivity|].
    split; [intros; reflexivity|]. split; [intros; reflexivity|].
    intros j Hj. lia.
  - rewrite seq_S, fold_left_app. cbn [fold_left].
    destruct (IH t Ht Hi ltac:(lia)) as (Hshape & Hcrc & Hcols & Hrow0 & Hrel).
    cbv zeta in *.
    destruct (fold_left (init_rows_inner i) (seq 1 k) (tbl t 0 (Z.of_nat i), t))
      as [crc tk].
    cbn [fst snd] in *. rewrite init_rows_inner_eq. cbn [fst snd].
    replace (1 + k)%nat with (S k) by lia.
    assert (Hu8 : is_u8 (Z.of_nat i)) by (unfold is_u8; lia).
    split; [apply tbl_set_shape; [exact Hshape | lia]|].
    split; [rewrite tbl_set_same, u32_u32 by (auto; lia); reflexivity|].
    split.
    { intros j' i' Hi'. rewrite tbl_set_other_col by (auto; lia).
      apply Hcols. exact Hi'. }
    split.
    { intros i'. rewrite tbl_set_other_row by lia. apply Hrow0. }
    intros j Hj. unfold next_row_value.
    rewrite (tbl_set_other_row tk (S k) _ _ 0) by lia.
    rewrite !(tbl_set_other_row tk (S k) _ _ (j - 1)) by lia.
    destruct (Nat.eq_dec j (S k)) as [->|Hne].
    + rewrite tbl_set_same, u32_u32 by (auto; lia).
      replace (S k - 1)%nat with k by lia. rewrite <- Hcrc. reflexivity.
    + rewrite tbl_set_other_row by lia.
      apply Hrel. lia.
Qed.

(** The second loop, after [n] columns. *)
Lemma init_rows_loop n : forall t,
  table_shape t -> (n <= 256)%nat ->
  table_shape (fold_left init_rows_body (seq 0 n) t)
  /\ (forall i', tbl (fold_left init_rows_body (seq 0 n) t) 0 i' = tbl t 0 i')
  /\ (forall i j, (i < n)%nat -> (1 <= j <= 7)%nat ->
        tbl (fold_left init_rows_body (seq 0 n) t) j (Z.of_nat i)
        = next_row_value (fold_left init_rows_body (seq 0 n) t) j (Z.of_nat i)).
Proof.
  induction n as [|n IH]; intros t Ht Hn.
  - cbn [seq fold_left].
    split; [exact Ht|]. split; [intros; reflexivity|].
    intros i j Hi. lia.
  - rewrite seq_S, fold_left_app. cbn [fold_left Nat.add].
    destruct (IH t Ht ltac:(lia)) as (Hshape & Hrow0 & Hrel).
    set (tn := fold_left init_rows_body (seq 0 n) t) in *.
    unfold init_rows_body.
    destruct (init_rows_inner_loop n 7 tn Hshape ltac:(lia) ltac:(lia))
      as (Hshape' & _ & Hcols & Hrow0' & Hrel').
    cbv zeta in *.
    set (tn' := snd (fold_left (init_rows_inner n) (seq 1 7)
                       (tbl tn 0 (Z.of_nat n), tn))) in *.
    split; [exact Hshape'|].
    split; [intros i'; rewrite Hrow0'; apply Hrow0|].
    intros i j Hi Hj. destruct (Nat.eq_dec i n) as [->|Hne].
    + apply Hrel'. exact Hj.
    + unfold next_row_value.
      rewrite !(Hcols _ (Z.of_nat i)) by lia. rewrite Hrow0'.
      apply Hrel; lia.
Qed.

Lemma crc_bit_spec_round x : crc_bit x = u32 (spec_round x).
Proof.
  unfold crc_bit, spec_round. rewrite land_1_odd, Z.bit0_odd.
  destruct (Z.odd x); reflexivity.
Qed.

Lemma spec_round_u32 x : is_u32 x -> is_u32 (spec_round x).
Proof.
  intros Hx. unfold spec_round.
  destruct (Z.testbit x 0).
  - apply is_u32_lxor; [apply is_u32_shiftr; [lia | exact Hx]|].
    unfold is_u32. lia.
  - apply is_u32_shiftr; [lia | exact Hx].
Qed.

Lemma iter_spec_round_u32 n x : is_u32 x -> is_u32 (Nat.iter n spec_round x).
Proof.
  intros Hx. induction n as [|n IH]; [exact Hx|].
  rewrite Nat.iter_succ. apply spec_round_u32. exact IH.
Qed.

Lemma iter_crc_bit_spec_round n x :
  is_u32 x -> Nat.iter n crc_bit x = Nat.iter n spec_round x.
Proof.
  intros Hx. induction n as [|n IH]; [reflexivity|].
  rewrite !Nat.iter_succ, IH, crc_bit_spec_round. apply u32_id, spec_round_u32.
  apply iter_spec_round_u32. exact Hx.
Qed.

Lemma initCrcTable_shape t : table_shape t -> table_shape (initCrcTable t).
Proof.
  intros Ht. unfold initCrcTable.
  apply init_rows_loop; [|lia]. apply init_row0_loop; [exact Ht | lia].
Qed.

Lemma initCrcTable_row0 t i :
  table_shape t -> is_u8 i ->
  tbl (initCrcTable t) 0 i = Nat.iter 8 spec_round i.
Proof.
  intros Ht Hi. unfold initCrcTable, is_u8 in *.
  destruct (init_row0_loop 256 t Ht ltac:(lia)) as [Hshape Hrow].
  destruct (init_rows_loop 256 _ Hshape ltac:(lia)) as (_ & Hrow0 & _).
  rewrite Hrow0. rewrite <- (Z2Nat.id i) by lia.
  rewrite Hrow by lia. unfold row0_value.
  assert (Hu : is_u32 (Z.of_nat (Z.to_nat i))) by (unfold is_u32; lia).
  rewrite (u32_id _ Hu), iter_crc_bit_spec_round by exact Hu.
  apply u32_id, iter_spec_round_u32. exact Hu.
Qed.

Lemma initCrcTable_next_row t i j :
  table_shape t -> is_u8 i -> (1 <= j <= 7)%nat ->
  tbl (initCrcTable t) j i = next_row_value (initCrcTable t) j i.
Proof.
  intros Ht Hi Hj. unfold initCrcTable, is_u8 in *.
  destruct (init_row0_loop 256 t Ht ltac:(lia)) as [Hshape _].
  destruct (init_rows_loop 256 _ Hshape ltac:(lia)) as (_ & _ & Hrel).
  rewrite <- (Z2Nat.id i) by lia. apply Hrel; lia.
Qed.

Lemma initCrcTable_entry_u32 t i j :
  table_shape t -> is_u8 i -> (j <= 7)%nat -> is_u32 (tbl (initCrcTable t) j i).
Proof.
  intros Ht Hi Hj. destruct j as [|j].
  - rewrite initCrcTable_row0 by assumption.
    apply iter_spec_round_u32. unfold is_u8, is_u32 in *. lia.
  - rewrite initCrcTable_next_row by (auto; lia).
    unfold next_row_value. apply u32_range.
Qed.

(** * Known values *)

Example crc32cTable_0_1 : tbl crc32cTable 0 1 = 0xF26B8303.
Proof. reflexivity. Qed.

Example hwCrc32c_check_vector :
  hwCrc32c (store 64 check_string zero_mem) 0 64 9 = 0xE3069283.
Proof. vm_compute. reflexivity. Qed.

Example isSSE42Available_generic : isSSE42Available be_host = false.
Proof. reflexivity. Qed.

(** * The properties of the specification *)

(** The check value on little-endian hosts: after [initCrcTable] has
    filled the table, the software engine run on the nine ASCII bytes
    "123456789" with initial CRC 0 returns 0xE3069283 there, wherever the
    buffer lies. *)
Theorem swCrc32c_check_vector h m buf :
  host_order h = LittleEndian ->
  swCrc32c h (initCrcTable crc32cTable_static) (store buf check_string m) 0 buf 9
  = 0xE3069283.
Proof.
  intros Hle. rewrite crc32cTable_eq.
  rewrite swCrc32c_le by (auto using is_u32_0).
  change 9%nat with (List.length check_string).
  rewrite load_bytes_store0.
  vm_compute. reflexivity.
Qed.

Lemma swCrc32c_check_vector_witness :
  host_order x86_host = LittleEndian
  /\ swCrc32c x86_host (initCrcTable crc32cTable_static)
       (store 64 check_string zero_mem) 0 64 9 = 0xE3069283.
Proof.
  split; [reflexivity|].
  apply (swCrc32c_check_vector x86_host zero_mem 64). reflexivity.
Defined.

(** C3: with length 0 the software engine returns the initial CRC as it
    was given, without complementing it; for initial CRC 0 that is 0. *)
Theorem swCrc32c_empty h t m seed buf :
  is_u32 seed ->
  swCrc32c h t m seed buf 0 = seed /\ swCrc32c h t m 0 buf 0 = 0.
Proof.
  intros Hseed. unfold swCrc32c, sw_acc. cbn [Nat.eqb].
  split; [apply u32_id; exact Hseed | reflexivity].
Qed.

Lemma swCrc32c_empty_witness :
  is_u32 0xDEADBEEF
  /\ swCrc32c x86_host crc32cTable zero_mem 0xDEADBEEF 64 0 = 0xDEADBEEF
  /\ swCrc32c x86_host crc32cTable zero_mem 0 64 0 = 0.
Proof.
  assert (H : is_u32 0xDEADBEEF) by (unfold is_u32; lia).
  split; [exact H|].
  apply (swCrc32c_empty x86_host crc32cTable zero_mem 0xDEADBEEF 64 H).
Defined.

(** Chaining on little-endian hosts: for non-empty [A] and [B] the CRC
    of the buffer [A ++ B] from seed 0 is there the CRC of [B] seeded with
    the CRC of [A] from seed 0, wherever the three buffers lie. *)
Theorem swCrc32c_chaining h mab ma mb pab pa pb A B :
  host_order h = LittleEndian ->
  A <> [] -> B <> [] ->
  swCrc32c h crc32cTable (store pab (A ++ B) mab) 0 pab (List.length (A ++ B))
  = swCrc32c h crc32cTable (store pb B mb)
      (swCrc32c h crc32cTable (store pa A ma) 0 pa (List.length A))
      pb (List.length B).
Proof.
  intros Hle _ _.
  rewrite (swCrc32c_le h (store pb B mb)) by (auto using swCrc32c_u32).
  rewrite !swCrc32c_le by (auto using is_u32_0).
  rewrite !load_bytes_store0, double_complement, crc32c_bytes_app.
  reflexivity.
Qed.

Lemma swCrc32c_chaining_witness :
  host_order x86_host = LittleEndian
  /\ [x31; x32; x33; x34] <> []
  /\ [x35; x36; x37; x38; x39] <> []
  /\ swCrc32c x86_host crc32cTable
       (store 64 ([x31; x32; x33; x34] ++ [x35; x36; x37; x38; x39]) zero_mem)
       0 64 (List.length ([x31; x32; x33; x34] ++ [x35; x36; x37; x38; x39]))
     = swCrc32c x86_host crc32cTable
         (store 128 [x35; x36; x37; x38; x39] zero_mem)
         (swCrc32c x86_host crc32cTable
            (store 259 [x31; x32; x33; x34] zero_mem) 0 259
            (List.length [x31; x32; x33; x34]))
         128 (List.length [x35; x36; x37; x38; x39]).
Proof.
  split; [reflexivity|]. split; [discriminate|]. split; [discriminate|].
  apply (swCrc32c_chaining x86_host zero_mem zero_mem zero_mem 64 259 128
           [x31; x32; x33; x34] [x35; x36; x37; x38; x39]);
    [reflexivity | discriminate | discriminate].
Defined.

(** X19: on a little-endian host the checksum of a buffer does not
    depend on where it starts: placed behind [p] padding bytes that the
    length leaves out, or behind [q] of them, with [p] and [q] in 0..7, the
    engine returns the same value for the same bytes and initial CRC. *)
Theorem swCrc32c_alignment h seed B pad1 pad2 base1 base2 m1 m2 :
  host_order h = LittleEndian ->
  is_u32 seed ->
  (List.length pad1 <= 7)%nat -> (List.length pad2 <= 7)%nat ->
  swCrc32c h crc32cTable (store base1 (pad1 ++ B) m1) seed
    (base1 + Z.of_nat (List.length pad1)) (List.length B)
  = swCrc32c h crc32cTable (store base2 (pad2 ++ B) m2) seed
      (base2 + Z.of_nat (List.length pad2)) (List.length B).
Proof.
  intros Hle Hseed _ _.
  rewrite !swCrc32c_le by assumption.
  rewrite !load_bytes_store. reflexivity.
Qed.

Lemma swCrc32c_alignment_witness :
  host_order x86_host = LittleEndian
  /\ is_u32 7
  /\ (List.length [x00; x00; x00] <= 7)%nat
  /\ (List.length (@nil byte) <= 7)%nat
  /\ swCrc32c x86_host crc32cTable
       (store 64 ([x00; x00; x00] ++ check_string) zero_mem) 7
       (64 + Z.of_nat (List.length [x00; x00; x00])) (List.length check_string)
     = swCrc32c x86_host crc32cTable
         (store 128 ([] ++ check_string) zero_mem) 7
         (128 + Z.of_nat (List.length (@nil byte))) (List.length check_string).
Proof.
  assert (H7 : is_u32 7) by (unfold is_u32; lia).
  split; [reflexivity|]. split; [exact H7|].
  split; [cbn; lia|]. split; [cbn; lia|].
  apply (swCrc32c_alignment x86_host 7 check_string [x00; x00; x00] []
           64 128 zero_mem zero_mem);
    [reflexivity | exact H7 | cbn; lia | cbn; lia].
Defined.

(** C5: the engine does not return the same value on hosts of either byte
    order.  For the buffer "123456789" at an 8-byte aligned address and
    initial CRC 0, a big-endian host returns 0xCEE6525A where a
    little-endian host returns 0xE3069283, and on the big-endian host the
    bulk step over the first eight bytes is not eight byte steps with
    row 0. *)
Theorem swCrc32c_big_endian_differs :
  swCrc32c be_host crc32cTable (store 64 check_string zero_mem) 0 64 9
  = 0xCEE6525A
  /\ swCrc32c le_host crc32cTable (store 64 check_string zero_mem) 0 64 9
     = 0xE3069283
  /\ bulk_step be_host crc32cTable (store 64 check_string zero_mem)
       0xFFFFFFFF 64
     <> fold_left (byte_step be_host crc32cTable)
          (load_bytes (store 64 check_string zero_mem) 64 8) 0xFFFFFFFF.
Proof.
  split; [vm_compute; reflexivity|].
  split; [vm_compute; reflexivity|].
  vm_compute. discriminate.
Qed.

(** C1: the check value is not returned on every host.  After
    [initCrcTable] has filled the table, the engine run on "123456789" at
    the 8-byte aligned address 64 with initial CRC 0 returns 0xCEE6525A on a
    big-endian host, not 0xE3069283: the native 64-bit load of the bulk loop
    folds the first eight bytes last byte first. *)
Theorem swCrc32c_check_vector_big_endian :
  swCrc32c be_host (initCrcTable crc32cTable_static)
    (store 64 check_string zero_mem) 0 64 9 = 0xCEE6525A
  /\ swCrc32c be_host (initCrcTable crc32cTable_static)
       (store 64 check_string zero_mem) 0 64 9 <> 0xE3069283.
Proof.
  rewrite crc32cTable_eq.
  assert (E : swCrc32c be_host crc32cTable (store 64 check_string zero_mem)
                0 64 9 = 0xCEE6525A) by (vm_compute; reflexivity).
  rewrite E. split; [reflexivity | discriminate].
Qed.

(** C4: the chaining law fails on a big-endian host.  With [A] the bytes
    "1234" and [B] the bytes "56789", each at the aligned address 64, the
    engine returns 0xCEE6525A for [A ++ B] from seed 0, but 0xE3069283 for
    [B] seeded with the CRC of [A]: the one call over nine bytes enters the
    bulk loop, the two short calls do not. *)
Theorem swCrc32c_chaining_big_endian :
  swCrc32c be_host crc32cTable
    (store 64 ([x31; x32; x33; x34] ++ [x35; x36; x37; x38; x39]) zero_mem)
    0 64 (List.length ([x31; x32; x33; x34] ++ [x35; x36; x37; x38; x39]))
  = 0xCEE6525A
  /\ swCrc32c be_host crc32cTable
       (store 64 [x35; x36; x37; x38; x39] zero_mem)
       (swCrc32c be_host crc32cTable (store 64 [x31; x32; x33; x34] zero_mem)
          0 64 (List.length [x31; x32; x33; x34]))
       64 (List.length [x35; x36; x37; x38; x39])
     = 0xE3069283.
Proof.
  split; vm_compute; reflexivity.
Qed.

(** C6: the checksum depends on the alignment on a big-endian host.
    For the bytes "123456789" and initial CRC 0, the engine returns
    0xCEE6525A when the buffer starts at the aligned address 64 (no
    padding), but 0xE3069283 when it starts behind three padding bytes, at
    address 67, where the leading loop takes five bytes and the bulk loop
    none. *)
Theorem swCrc32c_alignment_big_endian :
  swCrc32c be_host crc32cTable (store 64 ([] ++ check_string) zero_mem) 0
    (64 + Z.of_nat (List.length (@nil byte))) (List.length check_string)
  = 0xCEE6525A
  /\ swCrc32c be_host crc32cTable
       (store 64 ([x00; x00; x00] ++ check_string) zero_mem) 0
       (64 + Z.of_nat (List.length [x00; x00; x00])) (List.length check_string)
     = 0xE3069283.
Proof.
  split; vm_compute; reflexivity.
Qed.

(** C7: whatever the 8 x 256 array held before, in the table
    [initCrcTable] leaves, entry [i] of row 0 is [i] after exactly eight
    rounds of "if the low bit is set, shift right one and XOR 0x82F63B78,
    else shift right one", and for [j] in 1..7 entry [i] of row [j] is row 0
    at the low byte of entry [i] of row [j - 1], XORed with that entry
    shifted right by 8 bits. *)
Theorem initCrcTable_rows t i :
  table_shape t ->
  is_u8 i ->
  tbl (initCrcTable t) 0 i = Nat.iter 8 spec_round i
  /\ forall j, (1 <= j <= 7)%nat ->
       tbl (initCrcTable t) j i
       = Z.lxor
           (tbl (initCrcTable t) 0
              (Z.land (tbl (initCrcTable t) (j - 1) i) 0xff))
           (Z.shiftr (tbl (initCrcTable t) (j - 1) i) 8).
Proof.
  intros Ht Hi. split; [apply initCrcTable_row0; assumption|].
  intros j Hj. rewrite (initCrcTable_next_row t i j Ht Hi Hj) at 1.
  unfold next_row_value. apply u32_id, is_u32_lxor.
  - apply initCrcTable_entry_u32; [exact Ht | apply land_ff_range | lia].
  - apply is_u32_shiftr; [lia|].
    apply initCrcTable_entry_u32; [exact Ht | exact Hi | lia].
Qed.

Lemma crc32cTable_static_shape : table_shape crc32cTable_static.
Proof. split; [reflexivity | repeat constructor]. Qed.

Lemma initCrcTable_rows_witness :
  table_shape crc32cTable_static
  /\ is_u8 0x31
  /\ tbl (initCrcTable crc32cTable_static) 0 0x31 = Nat.iter 8 spec_round 0x31
  /\ forall j, (1 <= j <= 7)%nat ->
       tbl (initCrcTable crc32cTable_static) j 0x31
       = Z.lxor
           (tbl (initCrcTable crc32cTable_static) 0
              (Z.land (tbl (initCrcTable crc32cTable_static) (j - 1) 0x31) 0xff))
           (Z.shiftr (tbl (initCrcTable crc32cTable_static) (j - 1) 0x31) 8).
Proof.
  assert (H : is_u8 0x31) by (unfold is_u8; lia).
  split; [exact crc32cTable_static_shape|]. split; [exact H|].
  apply (initCrcTable_rows crc32cTable_static 0x31 crc32cTable_static_shape H).
Defined.

(** C8: called with a boolean and a buffer (and optionally a number), the
    dispatcher returns the result of the hardware engine when the flag is
    true and of the software engine when it is false, whatever function the
    hardware engine is and whether or not the host has the instruction. *)
Theorem calculateCrc_dispatch h m hw useHardwareCrc data len :
  calculateCrc h m hw [JsBoolean useHardwareCrc; JsBuffer data len]
  = Returns (if useHardwareCrc
             then u32 (hw 0 data len)
             else swCrc32c h crc32cTable m 0 data len)
  /\ forall n,
      calculateCrc h m hw
        [JsBoolean useHardwareCrc; JsBuffer data len; JsNumber n]
      = Returns (if useHardwareCrc
                 then u32 (hw (u32 n) data len)
                 else swCrc32c h crc32cTable m (u32 n) data len).
Proof.
  split; [|intros n];
    unfold calculateCrc, initial_crc_of, arg, Uint32Value;
    cbn [List.length Nat.ltb Nat.leb nth];
    destruct useHardwareCrc; try reflexivity;
    (rewrite (u32_id (swCrc32c _ _ _ _ _ _)) by apply swCrc32c_u32);
    reflexivity.
Qed.

(** C9: from any 32-bit initial CRC, the accumulator is below 2^32 at
    every loop test the engine reaches: on entry to the leading loop,
    between iterations of the leading, bulk and trailing loops, and on
    leaving each of them.  The machine leaves the last loop with the locals
    the loops compute, and the casts at the returns drop nothing: the value
    returned is the whole accumulator. *)
Theorem swCrc32c_accumulator_32bit h m seed buf len :
  is_u32 seed ->
  (forall s, steps h crc32cTable m (entry seed buf len) s ->
             0 <= l_crc (s_loc s) < 2 ^ 32)
  /\ steps h crc32cTable m (entry seed buf len)
       (State AtReturn (sw_loops h crc32cTable m seed buf len))
  /\ swCrc32c h crc32cTable m seed buf len
     = sw_acc h crc32cTable m seed buf len.
Proof.
  intros Hseed.
  assert (Hentry : is_u32 (l_crc (s_loc (entry seed buf len)))).
  { unfold entry. cbn [s_loc l_crc].
    rewrite u64_id; [|apply is_u32_u64]; apply complement_u32; exact Hseed. }
  assert (Hinv : forall s, steps h crc32cTable m (entry seed buf len) s ->
                           is_u32 (l_crc (s_loc s))).
  { intros s Hs.
    exact (steps_keep_u32 h crc32cTable m crc32cTable_reduces _ _ Hs Hentry). }
  pose proof (machine_run h crc32cTable m seed buf len) as Hrun.
  split; [exact Hinv|]. split; [exact Hrun|].
  unfold swCrc32c. apply u32_id. unfold sw_acc.
  destruct (len =? 0)%nat; [exact Hseed|].
  specialize (Hinv _ Hrun). cbn [s_loc] in Hinv.
  rewrite u64_id; [|apply is_u32_u64]; apply complement_u32; exact Hinv.
Qed.

Lemma swCrc32c_accumulator_32bit_witness :
  is_u32 0
  /\ (forall s,
        steps x86_host crc32cTable (store 67 check_string zero_mem)
          (entry 0 67 9) s ->
        0 <= l_crc (s_loc s) < 2 ^ 32)
  /\ steps x86_host crc32cTable (store 67 check_string zero_mem) (entry 0 67 9)
       (State AtReturn
          (sw_loops x86_host crc32cTable (store 67 check_string zero_mem) 0 67 9))
  /\ swCrc32c x86_host crc32cTable (store 67 check_string zero_mem) 0 67 9
     = sw_acc x86_host crc32cTable (store 67 check_string zero_mem) 0 67 9.
Proof.
  split; [exact is_u32_0|].
  apply (swCrc32c_accumulator_32bit x86_host
           (store 67 check_string zero_mem) 0 67 9 is_u32_0).
Defined.

(** ** Signed and unsigned [char] *)

Lemma byte_step_unsigned h t crc b :
  byte_step h t crc b = byte_step (with_unsigned_char h) t crc b.
Proof. unfold byte_step. rewrite !byte_index_unsigned. reflexivity. Qed.

Lemma leading_loop_unsigned h t m len : forall crc next,
  leading_loop h t m len crc next
  = leading_loop (with_unsigned_char h) t m len crc next.
Proof.
  induction len as [|len IH]; intros crc next; cbn [leading_loop].
  - reflexivity.
  - rewrite IH, <- byte_step_unsigned. reflexivity.
Qed.

Lemma bulk_loop_unsigned h t m len : forall crc next,
  bulk_loop h t m len crc next
  = bulk_loop (with_unsigned_char h) t m len crc next.
Proof.
  (* the bulk loop reads no [char]: the two loops are the same function *)
  intros crc next. reflexivity.
Qed.

Lemma trailing_loop_unsigned h t m len : forall crc next,
  trailing_loop h t m len crc next
  = trailing_loop (with_unsigned_char h) t m len crc next.
Proof.
  induction len as [|len IH]; intros crc next; cbn [trailing_loop].
  - reflexivity.
  - rewrite IH, <- byte_step_unsigned. reflexivity.
Qed.

(** C10: whether plain [char] is signed or not, the engine returns the
    same value: for every host, table, memory, initial CRC and buffer,
    also one holding bytes from 0x80 up, [swCrc32c] equals the same
    algorithm reading its bytes unsigned. *)
Theorem swCrc32c_char_sign h t m seed buf len :
  swCrc32c h t m seed buf len
  = swCrc32c (with_unsigned_char h) t m seed buf len.
Proof.
  unfold swCrc32c, sw_acc, sw_loops.
  rewrite leading_loop_unsigned, bulk_loop_unsigned, trailing_loop_unsigned.
  reflexivity.
Qed.

(** C2: on a host where [isSSE42Available] answers true, for every 32-bit
    initial CRC and every buffer the software engine returns what the
    hardware engine returns, and the dispatcher returns the same number for
    either value of the flag. *)
Theorem swCrc32c_hwCrc32c_agree h m seed buf len :
  isSSE42Available h = true ->
  is_u32 seed ->
  swCrc32c h crc32cTable m seed buf len = hwCrc32c m seed buf len
  /\ calculateCrc h m (hwCrc32c m)
       [JsBoolean true; JsBuffer buf len; JsNumber seed]
     = calculateCrc h m (hwCrc32c m)
         [JsBoolean false; JsBuffer buf len; JsNumber seed].
Proof.
  intros Hhw Hseed.
  assert (E : swCrc32c h crc32cTable m seed buf len = hwCrc32c m seed buf len).
  { unfold hwCrc32c. apply swCrc32c_le; [|exact Hseed].
    apply sse42_little_endian. exact Hhw. }
  split; [exact E|].
  unfold calculateCrc, initial_crc_of, arg, Uint32Value.
  cbn [List.length Nat.ltb Nat.leb nth].
  rewrite (u32_id seed Hseed), E. reflexivity.
Qed.

Lemma swCrc32c_hwCrc32c_agree_witness :
  isSSE42Available x86_host = true
  /\ is_u32 0
  /\ swCrc32c x86_host crc32cTable (store 67 check_string zero_mem) 0 67 9
     = hwCrc32c (store 67 check_string zero_mem) 0 67 9
  /\ calculateCrc x86_host (store 67 check_string zero_mem)
       (hwCrc32c (store 67 check_string zero_mem))
       [JsBoolean true; JsBuffer 67 9; JsNumber 0]
     = calculateCrc x86_host (store 67 check_string zero_mem)
         (hwCrc32c (store 67 check_string zero_mem))
         [JsBoolean false; JsBuffer 67 9; JsNumber 0].
Proof.
  split; [reflexivity|]. split; [exact is_u32_0|].
  apply (swCrc32c_hwCrc32c_agree x86_host (store 67 check_string zero_mem)
           0 67 9); [reflexivity | exact is_u32_0].
Defined.

(** * Further properties of the engine *)

(** ** What the loops read and where they stop *)

Lemma load_bytes_agree m1 m2 a n :
  (forall x, in_buffer a n x -> m1 x = m2 x) ->
  load_bytes m1 a n = load_bytes m2 a n.
Proof.
  intros H. unfold load_bytes. apply map_ext_in. intros k Hk.
  apply in_seq in Hk. apply H. unfold in_buffer. lia.
Qed.

Lemma load_bytes_cons_inv m1 m2 a n :
  load_bytes m1 a (S n) = load_bytes m2 a (S n) ->
  m1 a = m2 a /\ load_bytes m1 (a + 1) n = load_bytes m2 (a + 1) n.
Proof.
  rewrite !load_bytes_S. intros H. injection H as H0 H1. split; assumption.
Qed.

Lemma app_same_length_inv {A} (xs : list A) : forall xs' ys ys',
  List.length xs = List.length xs' ->
  xs ++ ys = xs' ++ ys' -> xs = xs' /\ ys = ys'.
Proof.
  induction xs as [|x xs IH]; intros [|x' xs'] ys ys' Hlen H;
    cbn [List.length] in Hlen; try discriminate.
  - split; [reflexivity | exact H].
  - cbn [app] in H. injection H as Hx Hrest.
    destruct (IH xs' ys ys' ltac:(lia) Hrest) as [-> ->].
    rewrite Hx. split; reflexivity.
Qed.

Lemma load_bytes_app_inv m1 m2 a n k :
  load_bytes m1 a (n + k) = load_bytes m2 a (n + k) ->
  load_bytes m1 a n = load_bytes m2 a n
  /\ load_bytes m1 (a + Z.of_nat n) k = load_bytes m2 (a + Z.of_nat n) k.
Proof.
  rewrite !load_bytes_app. intros H.
  apply app_same_length_inv in H; [exact H|].
  rewrite !load_bytes_length. reflexivity.
Qed.

Section SameBytes.
Variable h : host.
Variable t : table.
Variables m1 m2 : mem.

Lemma leading_loop_same len : forall crc next,
  load_bytes m1 next len = load_bytes m2 next len ->
  leading_loop h t m1 len crc next = leading_loop h t m2 len crc next
  /\ load_bytes m1 (l_next (leading_loop h t m1 len crc next))
                   (l_len (leading_loop h t m1 len crc next))
     = load_bytes m2 (l_next (leading_loop h t m1 len crc next))
                     (l_len (leading_loop h t m1 len crc next)).
Proof.
  induction len as [|len IH]; intros crc next H; cbn [leading_loop].
  - split; reflexivity.
  - destruct (negb (Z.land next 7 =? 0)).
    + apply load_bytes_cons_inv in H. destruct H as [H0 H1].
      rewrite <- H0. apply IH. exact H1.
    + split; [reflexivity | exact H].
Qed.

Lemma bulk_step_same crc next :
  load_bytes m1 next 8 = load_bytes m2 next 8 ->
  bulk_step h t m1 crc next = bulk_step h t m2 crc next.
Proof. intros H. unfold bulk_step, load_u64. rewrite H. reflexivity. Qed.

Lemma bulk_loop_same len : forall crc next,
  load_bytes m1 next len = load_bytes m2 next len ->
  bulk_loop h t m1 len crc next = bulk_loop h t m2 len crc next
  /\ load_bytes m1 (l_next (bulk_loop h t m1 len crc next))
                   (l_len (bulk_loop h t m1 len crc next))
     = load_bytes m2 (l_next (bulk_loop h t m1 len crc next))
                     (l_len (bulk_loop h t m1 len crc next)).
Proof.
  induction len as [len IH] using lt_wf_ind. intros crc next H.
  destruct len as [|[|[|[|[|[|[|[|len']]]]]]]]; cbn [bulk_loop];
    try (split; [reflexivity | exact H]).
  change (S (S (S (S (S (S (S (S len')))))))) with (8 + len')%nat in H.
  apply load_bytes_app_inv in H. destruct H as [H8 Hrest].
  rewrite <- (bulk_step_same crc next H8).
  apply IH; [lia | exact Hrest].
Qed.

Lemma trailing_loop_same len : forall crc next,
  load_bytes m1 next len = load_bytes m2 next len ->
  trailing_loop h t m1 len crc next = trailing_loop h t m2 len crc next.
Proof.
  induction len as [|len IH]; intros crc next H; cbn [trailing_loop].
  - reflexivity.
  - apply load_bytes_cons_inv in H. destruct H as [H0 H1].
    rewrite <- H0. apply IH. exact H1.
Qed.

Lemma sw_loops_same seed buf len :
  load_bytes m1 buf len = load_bytes m2 buf len ->
  sw_loops h t m1 seed buf len = sw_loops h t m2 seed buf len.
Proof.
  intros H. unfold sw_loops.
  destruct (leading_loop_same len (u64 (Z.lxor seed 0xFFFFFFFF)) buf H)
    as [E1 H1].
  rewrite <- E1.
  destruct (bulk_loop_same _ (l_crc (leading_loop h t m1 len
                                       (u64 (Z.lxor seed 0xFFFFFFFF)) buf))
              _ H1) as [E2 H2].
  rewrite <- E2. apply trailing_loop_same. exact H2.
Qed.

End SameBytes.

(** X1: the engine reads nothing outside the buffer.  Two memories that
    hold the same bytes at the addresses [buf .. buf + len - 1] give the same
    checksum, on every host and for every table, whatever lies around the
    buffer. *)
Theorem swCrc32c_reads_only_buffer h t m1 m2 seed buf len :
  (forall a, in_buffer buf len a -> m1 a = m2 a) ->
  swCrc32c h t m1 seed buf len = swCrc32c h t m2 seed buf len.
Proof.
  intros H. unfold swCrc32c, sw_acc.
  rewrite (sw_loops_same h t m1 m2 seed buf len (load_bytes_agree _ _ _ _ H)).
  reflexivity.
Qed.

Lemma swCrc32c_reads_only_buffer_witness :
  (forall a, in_buffer 67 9 a ->
     store 67 check_string zero_mem a
     = store 60 ([xff; xff; xff; xff; xff; xff; xff] ++ check_string ++ [xff])
         zero_mem a)
  /\ swCrc32c be_host crc32cTable (store 67 check_string zero_mem) 5 67 9
     = swCrc32c be_host crc32cTable
         (store 60 ([xff; xff; xff; xff; xff; xff; xff] ++ check_string ++ [xff])
            zero_mem) 5 67 9.
Proof.
  assert (H : forall a, in_buffer 67 9 a ->
     store 67 check_string zero_mem a
     = store 60 ([xff; xff; xff; xff; xff; xff; xff] ++ check_string ++ [xff])
         zero_mem a).
  { unfold in_buffer. intros a Ha.
    assert (Hcases : a = 67 \/ a = 68 \/ a = 69 \/ a = 70 \/ a = 71
                     \/ a = 72 \/ a = 73 \/ a = 74 \/ a = 75) by lia.
    repeat (destruct Hcases as [-> | Hcases]; [reflexivity|]).
    subst a. reflexivity. }
  split; [exact H|].
  apply (swCrc32c_reads_only_buffer be_host crc32cTable _ _ 5 67 9 H).
Defined.

Section Accounting.
Variable h : host.
Variable t : table.
Variable m : mem.

Lemma land7_mod8 x : Z.land x 7 = x mod 8.
Proof. change 7 with (Z.ones 3). rewrite Z.land_ones by lia. reflexivity. Qed.

(** The leading loop stops at an aligned pointer or an exhausted buffer,
    having consumed fewer than eight bytes. *)
Lemma leading_loop_accounts len : forall crc next,
  l_next (leading_loop h t m len crc next)
  + Z.of_nat (l_len (leading_loop h t m len crc next))
  = next + Z.of_nat len
  /\ 0 <= l_next (leading_loop h t m len crc next) - next <= (- next) mod 8
  /\ (l_len (leading_loop h t m len crc next) = 0%nat
      \/ Z.land (l_next (leading_loop h t m len crc next)) 7 = 0).
Proof.
  induction len as [|len IH]; intros crc next; cbn [leading_loop].
  - cbn [l_next l_len]. split; [lia|]. split; [|left; reflexivity].
    pose proof (Z.mod_pos_bound (- next) 8). lia.
  - destruct (Z.land next 7 =? 0) eqn:E; cbn [negb].
    + cbn [l_next l_len]. split; [lia|]. split.
      * pose proof (Z.mod_pos_bound (- next) 8). lia.
      * right. apply Z.eqb_eq. exact E.
    + destruct (IH (byte_step h t crc (m next)) (next + 1)) as (H1 & H2 & H3).
      split; [lia|]. split; [|exact H3].
      apply Z.eqb_neq in E. rewrite land7_mod8 in E.
      assert (Hmod : (- (next + 1)) mod 8 + 1 = (- next) mod 8).
      { clear - E. Z.to_euclidean_division_equations. lia. }
      lia.
Qed.

Lemma bulk_loop_accounts len : forall crc next,
  l_next (bulk_loop h t m len crc next)
  + Z.of_nat (l_len (bulk_loop h t m len crc next))
  = next + Z.of_nat len
  /\ (l_len (bulk_loop h t m len crc next) < 8)%nat.
Proof.
  induction len as [len IH] using lt_wf_ind. intros crc next.
  destruct len as [|[|[|[|[|[|[|[|len']]]]]]]]; cbn [bulk_loop l_next l_len];
    try (split; lia).
  destruct (IH len' ltac:(lia) (bulk_step h t m crc next) (next + 8))
    as [H1 H2].
  split; [lia | exact H2].
Qed.

Lemma trailing_loop_accounts len : forall crc next,
  l_next (trailing_loop h t m len crc next) = next + Z.of_nat len
  /\ l_len (trailing_loop h t m len crc next) = 0%nat.
Proof.
  induction len as [|len IH]; intros crc next; cbn [trailing_loop].
  - cbn [l_next l_len]. split; [lia | reflexivity].
  - destruct (IH (byte_step h t crc (m next)) (next + 1)) as [H1 H2].
    split; [lia | exact H2].
Qed.

End Accounting.

(** X2: the three loops consume the buffer exactly.  On every host and
    for every table, when the last loop ends the pointer [next] stands at
    [buf + len] and [len] has reached 0. *)
Theorem sw_loops_consume_buffer h t m seed buf len :
  l_next (sw_loops h t m seed buf len) = buf + Z.of_nat len
  /\ l_len (sw_loops h t m seed buf len) = 0%nat.
Proof.
  unfold sw_loops.
  destruct (leading_loop_accounts h t m len (u64 (Z.lxor seed 0xFFFFFFFF)) buf)
    as (H1 & _ & _).
  set (s1 := leading_loop h t m len (u64 (Z.lxor seed 0xFFFFFFFF)) buf) in *.
  destruct (bulk_loop_accounts h t m (l_len s1) (l_crc s1) (l_next s1))
    as [H2 _].
  set (s2 := bulk_loop h t m (l_len s1) (l_crc s1) (l_next s1)) in *.
  destruct (trailing_loop_accounts h t m (l_len s2) (l_crc s2) (l_next s2))
    as [H3 H4].
  split; [lia | exact H4].
Qed.

Lemma leading_loop_len_le h t m len crc next :
  (l_len (leading_loop h t m len crc next) <= len)%nat.
Proof.
  destruct (leading_loop_accounts h t m len crc next) as (H1 & H2 & _). lia.
Qed.

(** X3: the leading loop handles at most seven bytes: it advances [next]
    by the distance to the next multiple of 8, or by [len] if the buffer
    ends first, and leaves [next] 8-byte aligned unless the buffer is
    exhausted. *)
Theorem leading_loop_at_most_7 h t m len crc next :
  (len - l_len (leading_loop h t m len crc next) <= 7)%nat
  /\ (l_len (leading_loop h t m len crc next) <= len)%nat
  /\ (l_len (leading_loop h t m len crc next) = 0%nat
      \/ Z.land (l_next (leading_loop h t m len crc next)) 7 = 0).
Proof.
  destruct (leading_loop_accounts h t m len crc next) as (H1 & H2 & H3).
  pose proof (Z.mod_pos_bound (- next) 8 ltac:(lia)).
  split; [lia|]. split; [lia | exact H3].
Qed.

(** ** The 64-bit loads are aligned *)

Lemma step_keeps_alignment h t m s s' :
  (s_at s = AtBulk ->
   l_len (s_loc s) = 0%nat \/ Z.land (l_next (s_loc s)) 7 = 0) ->
  step h t m s = Some s' ->
  s_at s' = AtBulk ->
  l_len (s_loc s') = 0%nat \/ Z.land (l_next (s_loc s')) 7 = 0.
Proof.
  destruct s as [l [crc next len]]. unfold step.
  cbn [s_at s_loc l_crc l_next l_len]. intros Hinv Hs.
  destruct l.
  - destruct (len =? 0)%nat eqn:Elen; cbn [negb andb] in Hs.
    + injection Hs as <-. cbn [s_at s_loc l_len]. intros _.
      left. apply Nat.eqb_eq. exact Elen.
    + destruct (Z.land next 7 =? 0) eqn:E; cbn [negb] in Hs;
        injection Hs as <-; cbn [s_at s_loc l_len l_next].
      * intros _. right. apply Z.eqb_eq. exact E.
      * discriminate.
  - destruct (8 <=? len)%nat eqn:E8; injection Hs as <-;
      cbn [s_at s_loc l_len l_next]; [|discriminate].
    intros _. apply Nat.leb_le in E8.
    destruct (Hinv eq_refl) as [H0 | Hal]; [lia|].
    right. rewrite land7_mod8 in *.
    replace (next + 8) with (next + 1 * 8) by lia.
    rewrite Z.mod_add by discriminate. exact Hal.
  - destruct (negb (len =? 0)%nat); injection Hs as <-; discriminate.
  - discriminate Hs.
Qed.

Lemma steps_keep_alignment h t m s s' :
  steps h t m s s' ->
  (s_at s = AtBulk ->
   l_len (s_loc s) = 0%nat \/ Z.land (l_next (s_loc s)) 7 = 0) ->
  s_at s' = AtBulk ->
  l_len (s_loc s') = 0%nat \/ Z.land (l_next (s_loc s')) 7 = 0.
Proof.
  induction 1 as [s | s s1 s2 Hstep _ IH]; intros Hinv.
  - exact Hinv.
  - apply IH. eapply step_keeps_alignment; eassumption.
Qed.

(** X4: every 64-bit load of the bulk loop is 8-byte aligned.  In any
    state the engine reaches at the test of the bulk loop with at least
    eight bytes left, so that the body will load a word through [next], the
    low three bits of [next] are 0; on every host, whatever the address of
    the buffer. *)
Theorem bulk_loads_are_aligned h t m seed buf len s :
  steps h t m (entry seed buf len) s ->
  s_at s = AtBulk ->
  (8 <= l_len (s_loc s))%nat ->
  Z.land (l_next (s_loc s)) 7 = 0.
Proof.
  intros Hsteps Hat H8.
  destruct (steps_keep_alignment h t m _ _ Hsteps) as [H0 | Hal];
    [unfold entry; cbn [s_at]; discriminate | exact Hat | lia | exact Hal].
Qed.

Lemma bulk_loads_are_aligned_witness :
  steps x86_host crc32cTable (store 61 check_string zero_mem) (entry 0 61 12)
    (State AtBulk
       (leading_loop x86_host crc32cTable (store 61 check_string zero_mem) 12
          (u64 (Z.lxor 0 0xFFFFFFFF)) 61))
  /\ (8 <= l_len (leading_loop x86_host crc32cTable
                    (store 61 check_string zero_mem) 12
                    (u64 (Z.lxor 0 0xFFFFFFFF)) 61))%nat
  /\ Z.land (l_next (leading_loop x86_host crc32cTable
                       (store 61 check_string zero_mem) 12
                       (u64 (Z.lxor 0 0xFFFFFFFF)) 61)) 7 = 0.
Proof.
  assert (Hrun : steps x86_host crc32cTable (store 61 check_string zero_mem)
                   (entry 0 61 12)
                   (State AtBulk
                      (leading_loop x86_host crc32cTable
                         (store 61 check_string zero_mem) 12
                         (u64 (Z.lxor 0 0xFFFFFFFF)) 61)))
    by apply leading_run.
  assert (H8 : (8 <= l_len (leading_loop x86_host crc32cTable
                              (store 61 check_string zero_mem) 12
                              (u64 (Z.lxor 0 0xFFFFFFFF)) 61))%nat)
    by (vm_compute; lia).
  split; [exact Hrun|]. split; [exact H8|].
  apply (bulk_loads_are_aligned x86_host crc32cTable
           (store 61 check_string zero_mem) 0 61 12 _ Hrun eq_refl H8).
Defined.

(** ** The engine against the bit-serial CRC-32C *)

(** X5: on every little-endian host, with or without the CRC
    instruction, the table-driven engine computes the bit-serial CRC-32C
    [crc32c_bytes]: the initial CRC complemented, every byte of the buffer
    XORed in and reduced by eight single-bit steps with the reflected
    polynomial, and the result complemented. *)
Theorem swCrc32c_is_bit_serial h m seed buf len :
  host_order h = LittleEndian ->
  is_u32 seed ->
  swCrc32c h (initCrcTable crc32cTable_static) m seed buf len
  = Z.lxor (crc32c_bytes (Z.lxor seed 0xFFFFFFFF) (load_bytes m buf len))
           0xFFFFFFFF.
Proof.
  intros Hle Hseed. rewrite crc32cTable_eq.
  rewrite swCrc32c_le by assumption. reflexivity.
Qed.

Lemma swCrc32c_is_bit_serial_witness :
  host_order le_host = LittleEndian
  /\ is_u32 0
  /\ swCrc32c le_host (initCrcTable crc32cTable_static)
       (store 61 check_string zero_mem) 0 61 9
     = Z.lxor
         (crc32c_bytes (Z.lxor 0 0xFFFFFFFF)
            (load_bytes (store 61 check_string zero_mem) 61 9))
         0xFFFFFFFF.
Proof.
  split; [reflexivity|]. split; [exact is_u32_0|].
  apply (swCrc32c_is_bit_serial le_host (store 61 check_string zero_mem) 0 61 9);
    [reflexivity | exact is_u32_0].
Defined.

Lemma bulk_loop_short h t m len crc next :
  (len < 8)%nat -> bulk_loop h t m len crc next = Locals crc next len.
Proof.
  intros Hlen.
  destruct len as [|[|[|[|[|[|[|[|len']]]]]]]]; try reflexivity. lia.
Qed.

(** X6: a buffer shorter than eight bytes never enters the bulk loop,
    so its checksum is the bit-serial CRC-32C on every host, big-endian
    ones included. *)
Theorem swCrc32c_short_buffer_any_host h m seed buf len :
  (len < 8)%nat ->
  is_u32 seed ->
  swCrc32c h crc32cTable m seed buf len
  = Z.lxor (crc32c_bytes (Z.lxor seed 0xFFFFFFFF) (load_bytes m buf len))
           0xFFFFFFFF.
Proof.
  intros Hlen Hseed. pose proof (complement_u32 _ Hseed) as Hc.
  destruct len as [|len'] eqn:Elen.
  - unfold swCrc32c, sw_acc. cbn [Nat.eqb load_bytes seq map].
    unfold crc32c_bytes. cbn [fold_left]. rewrite double_complement.
    apply u32_id. exact Hseed.
  - rewrite <- Elen in *. clear Elen len'.
    assert (Hloops : l_crc (sw_loops h crc32cTable m seed buf len)
                     = crc32c_bytes (Z.lxor seed 0xFFFFFFFF)
                         (load_bytes m buf len)).
    { unfold sw_loops. rewrite (u64_id _ (is_u32_u64 _ Hc)).
      destruct (leading_loop_spec h crc32cTable m crc32cTable_reduces len
                  _ buf Hc) as [Hu Hpend].
      pose proof (leading_loop_len_le h crc32cTable m len
                    (Z.lxor seed 0xFFFFFFFF) buf) as Hle.
      rewrite bulk_loop_short by lia. cbn [l_len l_crc l_next].
      rewrite trailing_loop_spec by (auto using crc32cTable_reduces).
      exact Hpend. }
    unfold swCrc32c, sw_acc.
    destruct (len =? 0)%nat eqn:E0.
    + apply Nat.eqb_eq in E0. subst len.
      cbn [load_bytes seq map]. unfold crc32c_bytes. cbn [fold_left].
      rewrite double_complement. apply u32_id. exact Hseed.
    + rewrite Hloops.
      assert (Hr : is_u32 (Z.lxor (crc32c_bytes (Z.lxor seed 0xFFFFFFFF)
                                     (load_bytes m buf len)) 0xFFFFFFFF)).
      { apply complement_u32, crc32c_bytes_u32. exact Hc. }
      rewrite (u64_id _ (is_u32_u64 _ Hr)). apply u32_id. exact Hr.
Qed.

Lemma swCrc32c_short_buffer_any_host_witness :
  (5 < 8)%nat
  /\ is_u32 0
  /\ swCrc32c be_host crc32cTable (store 64 check_string zero_mem) 0 64 5
     = Z.lxor
         (crc32c_bytes (Z.lxor 0 0xFFFFFFFF)
            (load_bytes (store 64 check_string zero_mem) 64 5))
         0xFFFFFFFF.
Proof.
  assert (H : (5 < 8)%nat) by lia.
  split; [exact H|]. split; [exact is_u32_0|].
  apply (swCrc32c_short_buffer_any_host be_host
           (store 64 check_string zero_mem) 0 64 5 H is_u32_0).
Defined.

(** X7: a checksum can be computed in two calls, split anywhere.  On a
    little-endian host, for every 32-bit initial CRC, running the engine on
    the first [la] bytes and then on the next [lb] bytes seeded with the
    first result gives the checksum of all [la + lb] bytes; either part may
    be empty. *)
Theorem swCrc32c_split_anywhere h m seed buf la lb :
  host_order h = LittleEndian ->
  is_u32 seed ->
  swCrc32c h crc32cTable m seed buf (la + lb)
  = swCrc32c h crc32cTable m
      (swCrc32c h crc32cTable m seed buf la) (buf + Z.of_nat la) lb.
Proof.
  intros Hle Hseed.
  rewrite (swCrc32c_le h m (swCrc32c h crc32cTable m seed buf la))
    by (auto using swCrc32c_u32).
  rewrite !swCrc32c_le by assumption.
  rewrite double_complement, load_bytes_app, crc32c_bytes_app. reflexivity.
Qed.

Lemma swCrc32c_split_anywhere_witness :
  host_order x86_host = LittleEndian
  /\ is_u32 0xDEADBEEF
  /\ swCrc32c x86_host crc32cTable (store 61 check_string zero_mem)
       0xDEADBEEF 61 (4 + 5)
     = swCrc32c x86_host crc32cTable (store 61 check_string zero_mem)
         (swCrc32c x86_host crc32cTable (store 61 check_string zero_mem)
            0xDEADBEEF 61 4)
         (61 + Z.of_nat 4) 5.
Proof.
  assert (H : is_u32 0xDEADBEEF) by (unfold is_u32; lia).
  split; [reflexivity|]. split; [exact H|].
  apply (swCrc32c_split_anywhere x86_host (store 61 check_string zero_mem)
           0xDEADBEEF 61 4 5); [reflexivity | exact H].
Defined.

(** ** The reduction loses nothing *)

Lemma testbit_32_u32 x : is_u32 x -> Z.testbit x 32 = false.
Proof.
  unfold is_u32. intros Hx.
  rewrite <- (Z.mod_small x (2 ^ 32)) by exact Hx.
  apply Z.mod_pow2_bits_high. lia.
Qed.

Lemma lxor_cancel_r a b c : Z.lxor a c = Z.lxor b c -> a = b.
Proof.
  intros H.
  rewrite <- (Z.lxor_0_r a), <- (Z.lxor_0_r b), <- (Z.lxor_nilpotent c).
  rewrite <- !Z.lxor_assoc, H. reflexivity.
Qed.

Lemma lxor_cancel_l a b c : Z.lxor c a = Z.lxor c b -> a = b.
Proof. rewrite !(Z.lxor_comm c). apply lxor_cancel_r. Qed.

Lemma crc_raw_odd x : is_u32 x -> Z.testbit (crc_raw x) 31 = Z.odd x.
Proof.
  intros Hx. unfold crc_raw.
  rewrite Z.lxor_spec, Z.shiftr_spec by lia.
  change (31 + 1) with 32. rewrite (testbit_32_u32 x Hx).
  destruct (Z.odd x); reflexivity.
Qed.

(** One reduction step can be undone: bit 31 of the result tells whether
    the polynomial was XORed in. *)
Lemma crc_raw_inj x y : is_u32 x -> is_u32 y -> crc_raw x = crc_raw y -> x = y.
Proof.
  intros Hx Hy H.
  assert (Hodd : Z.odd x = Z.odd y).
  { rewrite <- (crc_raw_odd x Hx), <- (crc_raw_odd y Hy), H. reflexivity. }
  unfold crc_raw in H. rewrite Hodd in H. apply lxor_cancel_r in H.
  apply Z.bits_inj'. intros n Hn.
  destruct (Z.eq_dec n 0) as [->|Hne].
  - rewrite !Z.bit0_odd. exact Hodd.
  - replace n with (n - 1 + 1) by lia.
    rewrite <- !Z.shiftr_spec by lia. rewrite H. reflexivity.
Qed.

Lemma iter_crc_raw_inj n x y :
  is_u32 x -> is_u32 y -> Nat.iter n crc_raw x = Nat.iter n crc_raw y -> x = y.
Proof.
  intros Hx Hy. induction n as [|n IH]; intros H.
  - exact H.
  - rewrite !Nat.iter_succ in H. apply IH.
    apply crc_raw_inj; auto using iter_crc_raw_u32.
Qed.

Lemma byte_val_inj b1 b2 : byte_val b1 = byte_val b2 -> b1 = b2.
Proof.
  unfold byte_val. intros H. apply N2Z.inj in H.
  pose proof (Byte.of_to_N b1) as H1. rewrite H, Byte.of_to_N in H1.
  injection H1 as H1. symmetry. exact H1.
Qed.

Lemma crc32c_update_inj_state c1 c2 b :
  is_u32 c1 -> is_u32 c2 ->
  crc32c_update c1 b = crc32c_update c2 b -> c1 = c2.
Proof.
  intros H1 H2 H. rewrite !crc32c_update_eq in H.
  apply iter_crc_raw_inj in H; auto using is_u32_lxor, byte_val_u32.
  apply lxor_cancel_r in H. exact H.
Qed.

Lemma crc32c_update_inj_byte c b1 b2 :
  is_u32 c -> crc32c_update c b1 = crc32c_update c b2 -> b1 = b2.
Proof.
  intros Hc H. rewrite !crc32c_update_eq in H.
  apply iter_crc_raw_inj in H; auto using is_u32_lxor, byte_val_u32.
  apply lxor_cancel_l in H. apply byte_val_inj. exact H.
Qed.

Lemma crc32c_bytes_inj_state bs : forall c1 c2,
  is_u32 c1 -> is_u32 c2 ->
  crc32c_bytes c1 bs = crc32c_bytes c2 bs -> c1 = c2.
Proof.
  induction bs as [|b bs IH]; intros c1 c2 H1 H2 H.
  - exact H.
  - rewrite !crc32c_bytes_cons in H.
    apply IH in H; auto using crc32c_update_u32.
    apply crc32c_update_inj_state in H; assumption.
Qed.

(** X8: a single corrupted byte is always detected.  On a little-endian
    host, two buffers that differ in exactly one byte, at any position, have
    different checksums for any common initial CRC, wherever they lie. *)
Theorem swCrc32c_detects_byte_change h m1 m2 p1 p2 seed A x y B :
  host_order h = LittleEndian ->
  is_u32 seed ->
  x <> y ->
  swCrc32c h crc32cTable (store p1 (A ++ x :: B) m1) seed p1
    (List.length (A ++ x :: B))
  <> swCrc32c h crc32cTable (store p2 (A ++ y :: B) m2) seed p2
       (List.length (A ++ y :: B)).
Proof.
  intros Hle Hseed Hxy Heq.
  rewrite !swCrc32c_le in Heq by assumption.
  rewrite !load_bytes_store0 in Heq.
  apply lxor_cancel_r in Heq.
  rewrite !crc32c_bytes_app, !crc32c_bytes_cons in Heq.
  pose proof (crc32c_bytes_u32 A _ (complement_u32 _ Hseed)) as Hc.
  apply crc32c_bytes_inj_state in Heq; auto using crc32c_update_u32.
  apply crc32c_update_inj_byte in Heq; [|exact Hc].
  exact (Hxy Heq).
Qed.

Lemma swCrc32c_detects_byte_change_witness :
  host_order x86_host = LittleEndian
  /\ is_u32 0
  /\ x35 <> x36
  /\ swCrc32c x86_host crc32cTable
       (store 64 ([x31; x32; x33; x34] ++ x35 :: [x36; x37; x38; x39]) zero_mem)
       0 64 (List.length ([x31; x32; x33; x34] ++ x35 :: [x36; x37; x38; x39]))
     <> swCrc32c x86_host crc32cTable
          (store 67 ([x31; x32; x33; x34] ++ x36 :: [x36; x37; x38; x39]) zero_mem)
          0 67 (List.length ([x31; x32; x33; x34] ++ x36 :: [x36; x37; x38; x39])).
Proof.
  assert (Hne : x35 <> x36) by discriminate.
  split; [reflexivity|]. split; [exact is_u32_0|]. split; [exact Hne|].
  apply (swCrc32c_detects_byte_change x86_host zero_mem zero_mem 64 67 0
           [x31; x32; x33; x34] x35 x36 [x36; x37; x38; x39]);
    [reflexivity | exact is_u32_0 | exact Hne].
Defined.

(** X9: over the same bytes, different initial CRCs give different
    checksums.  On a little-endian host the engine is injective in its
    32-bit initial CRC, for every buffer. *)
Theorem swCrc32c_seed_injective h m seed1 seed2 buf len :
  host_order h = LittleEndian ->
  is_u32 seed1 -> is_u32 seed2 ->
  swCrc32c h crc32cTable m seed1 buf len
  = swCrc32c h crc32cTable m seed2 buf len ->
  seed1 = seed2.
Proof.
  intros Hle H1 H2 Heq.
  rewrite !swCrc32c_le in Heq by assumption.
  apply lxor_cancel_r in Heq.
  apply crc32c_bytes_inj_state in Heq; auto using complement_u32.
  apply lxor_cancel_r in Heq. exact Heq.
Qed.

Lemma swCrc32c_seed_injective_witness :
  host_order x86_host = LittleEndian
  /\ is_u32 7 /\ is_u32 7
  /\ swCrc32c x86_host crc32cTable (store 64 check_string zero_mem) 7 64 9
     = swCrc32c x86_host crc32cTable (store 64 check_string zero_mem) 7 64 9
  /\ 7 = 7.
Proof.
  assert (H7 : is_u32 7) by (unfold is_u32; lia).
  split; [reflexivity|]. split; [exact H7|]. split; [exact H7|].
  split; [reflexivity|].
  apply (swCrc32c_seed_injective x86_host (store 64 check_string zero_mem)
           7 7 64 9); [reflexivity | exact H7 | exact H7 | reflexivity].
Defined.

(** * Further properties of the table generator *)

Lemma table_ext t1 t2 :
  table_shape t1 -> table_shape t2 ->
  (forall j i, (j < 8)%nat -> is_u8 i -> tbl t1 j i = tbl t2 j i) ->
  t1 = t2.
Proof.
  intros H1 H2 Hent.
  apply (nth_ext t1 t2 [] []).
  - destruct H1 as [-> _], H2 as [-> _]. reflexivity.
  - intros j Hj. assert (Hj8 : (j < 8)%nat) by (destruct H1 as [E _]; lia).
    apply (nth_ext _ _ 0 0).
    + rewrite !shape_row by assumption. reflexivity.
    + intros k Hk. rewrite shape_row in Hk by assumption.
      specialize (Hent j (Z.of_nat k) Hj8 ltac:(unfold is_u8; lia)).
      unfold tbl in Hent. rewrite Nat2Z.id in Hent. exact Hent.
Qed.

Lemma initCrcTable_entries_same t1 t2 :
  table_shape t1 -> table_shape t2 ->
  forall j i, (j < 8)%nat -> is_u8 i ->
    tbl (initCrcTable t1) j i = tbl (initCrcTable t2) j i.
Proof.
  intros H1 H2 j. induction j as [|j IH]; intros i Hj Hi.
  - rewrite !initCrcTable_row0 by assumption. reflexivity.
  - rewrite (initCrcTable_next_row t1 i (S j)) by (auto; lia).
    rewrite (initCrcTable_next_row t2 i (S j)) by (auto; lia).
    unfold next_row_value. replace (S j - 1)%nat with j by lia.
    rewrite (IH i) by (auto; lia).
    pose proof (land_ff_range (tbl (initCrcTable t2) j i)) as Hx.
    set (x := Z.land (tbl (initCrcTable t2) j i) 0xff) in *.
    rewrite (initCrcTable_row0 t1 x H1 Hx), (initCrcTable_row0 t2 x H2 Hx).
    reflexivity.
Qed.

Lemma initCrcTable_any t : table_shape t -> initCrcTable t = crc32cTable.
Proof.
  intros Ht. rewrite <- crc32cTable_eq.
  apply (table_ext (initCrcTable t) (initCrcTable crc32cTable_static)
           (initCrcTable_shape t Ht)
           (initCrcTable_shape _ crc32cTable_static_shape)).
  exact (initCrcTable_entries_same t crc32cTable_static Ht
           crc32cTable_static_shape).
Qed.

(** X10: the generated table does not depend on what the array held
    before.  From any two 8 x 256 arrays [initCrcTable] produces the same
    table, and running it again on its own result changes nothing. *)
Theorem initCrcTable_content_independent t1 t2 :
  table_shape t1 -> table_shape t2 ->
  initCrcTable t1 = initCrcTable t2
  /\ initCrcTable (initCrcTable t1) = initCrcTable t1.
Proof.
  intros H1 H2.
  rewrite (initCrcTable_any (initCrcTable t1)) by (apply initCrcTable_shape; exact H1).
  rewrite (initCrcTable_any t1 H1), (initCrcTable_any t2 H2).
  split; reflexivity.
Qed.

Lemma initCrcTable_content_independent_witness :
  table_shape crc32cTable_static
  /\ table_shape (repeat (repeat 0xFFFFFFFF 256%nat) 8%nat)
  /\ initCrcTable crc32cTable_static
     = initCrcTable (repeat (repeat 0xFFFFFFFF 256%nat) 8%nat)
  /\ initCrcTable (initCrcTable crc32cTable_static)
     = initCrcTable crc32cTable_static.
Proof.
  assert (H2 : table_shape (repeat (repeat 0xFFFFFFFF 256%nat) 8%nat))
    by (split; [reflexivity | repeat constructor]).
  split; [exact crc32cTable_static_shape|]. split; [exact H2|].
  apply (initCrcTable_content_independent crc32cTable_static
           (repeat (repeat 0xFFFFFFFF 256%nat) 8%nat)
           crc32cTable_static_shape H2).
Defined.

Lemma crc32c_update_zero c : crc32c_update c x00 = Nat.iter 8 crc_raw c.
Proof.
  rewrite crc32c_update_eq. change (byte_val x00) with 0.
  rewrite Z.lxor_0_r. reflexivity.
Qed.

Lemma crc32c_bytes_zeros j : forall c,
  crc32c_bytes c (repeat x00 j) = Nat.iter (8 * j) crc_raw c.
Proof.
  induction j as [|j IH]; intros c.
  - replace (8 * 0)%nat with 0%nat by reflexivity. reflexivity.
  - cbn [repeat]. rewrite crc32c_bytes_cons, IH, crc32c_update_zero.
    replace (8 * S j)%nat with (8 * j + 8)%nat by lia.
    rewrite iter_add. reflexivity.
Qed.

(** X11: what the rows of the generated table hold.  Entry [b] of row
    [j] is the bit-serial CRC-32C remainder, from 0, of the byte [b]
    followed by [j] zero bytes: row 0 reduces a byte on its own, row 7 a
    byte with seven bytes behind it. *)
Theorem initCrcTable_row_meaning t j b :
  table_shape t ->
  (j < 8)%nat ->
  tbl (initCrcTable t) j (byte_val b) = crc32c_bytes 0 (b :: repeat x00 j).
Proof.
  intros Ht Hj. rewrite (initCrcTable_any t Ht).
  rewrite (crc32cTable_reduces j (byte_val b) Hj (byte_val_range b)).
  rewrite crc32c_bytes_cons, crc32c_bytes_zeros, crc32c_update_eq.
  rewrite Z.lxor_0_l.
  replace (8 * S j)%nat with (8 * j + 8)%nat by lia.
  rewrite iter_add. reflexivity.
Qed.

Lemma initCrcTable_row_meaning_witness :
  table_shape crc32cTable_static
  /\ (3 < 8)%nat
  /\ tbl (initCrcTable crc32cTable_static) 3 (byte_val x31)
     = crc32c_bytes 0 (x31 :: repeat x00 3).
Proof.
  assert (H : (3 < 8)%nat) by lia.
  split; [exact crc32cTable_static_shape|]. split; [exact H|].
  apply (initCrcTable_row_meaning crc32cTable_static 3 x31
           crc32cTable_static_shape H).
Defined.

Lemma is_u8_lxor a b : is_u8 a -> is_u8 b -> is_u8 (Z.lxor a b).
Proof.
  unfold is_u8. change 256 with (2 ^ 8). intros. apply lxor_bound; lia.
Qed.

(** X12: every row of the generated table is linear over XOR.  For
    byte values [a] and [b], the entry at [a XOR b] is the XOR of the
    entries at [a] and at [b], and the entry at 0 is 0. *)
Theorem initCrcTable_rows_linear t j a b :
  table_shape t ->
  (j < 8)%nat ->
  is_u8 a -> is_u8 b ->
  tbl (initCrcTable t) j (Z.lxor a b)
  = Z.lxor (tbl (initCrcTable t) j a) (tbl (initCrcTable t) j b)
  /\ tbl (initCrcTable t) j 0 = 0.
Proof.
  intros Ht Hj Ha Hb. rewrite (initCrcTable_any t Ht).
  rewrite !(crc32cTable_reduces j)
    by (auto using is_u8_lxor; unfold is_u8; lia).
  split; [apply iter_crc_raw_lxor|].
  generalize (8 * S j)%nat. intros n.
  induction n as [|n IH]; [reflexivity|].
  rewrite Nat.iter_succ, IH. reflexivity.
Qed.

Lemma initCrcTable_rows_linear_witness :
  table_shape crc32cTable_static
  /\ (7 < 8)%nat
  /\ is_u8 0x31 /\ is_u8 0xF0
  /\ tbl (initCrcTable crc32cTable_static) 7 (Z.lxor 0x31 0xF0)
     = Z.lxor (tbl (initCrcTable crc32cTable_static) 7 0x31)
              (tbl (initCrcTable crc32cTable_static) 7 0xF0)
  /\ tbl (initCrcTable crc32cTable_static) 7 0 = 0.
Proof.
  assert (Hj : (7 < 8)%nat) by lia.
  assert (Ha : is_u8 0x31) by (unfold is_u8; lia).
  assert (Hb : is_u8 0xF0) by (unfold is_u8; lia).
  split; [exact crc32cTable_static_shape|]. split; [exact Hj|].
  split; [exact Ha|]. split; [exact Hb|].
  apply (initCrcTable_rows_linear crc32cTable_static 7 0x31 0xF0
           crc32cTable_static_shape Hj Ha Hb).
Defined.

(** * Properties of the capability detector *)

Lemma bit20_test x : (Z.land (Z.shiftr (u32 x) 20) 1 =? 1) = Z.testbit x 20.
Proof.
  change 1 with (Z.ones 1) at 1. rewrite Z.land_ones by lia.
  change (2 ^ 1) with 2. rewrite <- Z.bit0_mod, Z.shiftr_spec by lia.
  change (0 + 20) with 20. unfold u32.
  rewrite Z.mod_pow2_bits_low by lia.
  destruct (Z.testbit x 20); reflexivity.
Qed.

Lemma flag_mask_test x :
  negb (Z.land x SSE4_2_FLAG =? 0) = Z.testbit x 20.
Proof.
  change SSE4_2_FLAG with (2 ^ 20).
  destruct (Z.testbit x 20) eqn:E.
  - destruct (Z.land x (2 ^ 20) =? 0) eqn:E0; [|reflexivity].
    apply Z.eqb_eq in E0.
    assert (Hbit : Z.testbit (Z.land x (2 ^ 20)) 20 = true).
    { rewrite Z.land_spec, E, Z.pow2_bits_true by lia. reflexivity. }
    rewrite E0, Z.bits_0 in Hbit. discriminate.
  - replace (Z.land x (2 ^ 20)) with 0; [reflexivity|].
    symmetry. apply Z.bits_inj'. intros n Hn.
    rewrite Z.land_spec, Z.bits_0.
    destruct (Z.eq_dec n 20) as [->|Hne].
    + rewrite E. reflexivity.
    + rewrite Z.pow2_bits_false by lia. apply andb_false_r.
Qed.

(** X13: on a build for an architecture that is neither x86 nor MSVC's,
    the detector answers false whatever the processor would say: [cpuid]
    zeroes the registers, so [isSSE42Available] is false and
    [isHardwareCrcSupported] returns the boolean false for any arguments. *)
Theorem isSSE42Available_generic_false h o info :
  h_target h = Generic o ->
  isSSE42Available h = false
  /\ isHardwareCrcSupported h info = JsBoolean false.
Proof.
  intros Ht.
  assert (E : isSSE42Available h = false).
  { destruct h as [tg cs insn]. cbn [h_target] in Ht. subst tg.
    reflexivity. }
  split; [exact E|]. unfold isHardwareCrcSupported. rewrite E. reflexivity.
Qed.

Lemma isSSE42Available_generic_false_witness :
  h_target
    {| h_target := Generic LittleEndian; h_char_signed := true;
       h_cpuid_insn := fun _ => (0, 0, SSE4_2_FLAG, 0) |}
  = Generic LittleEndian
  /\ isSSE42Available
       {| h_target := Generic LittleEndian; h_char_signed := true;
          h_cpuid_insn := fun _ => (0, 0, SSE4_2_FLAG, 0) |} = false
  /\ isHardwareCrcSupported
       {| h_target := Generic LittleEndian; h_char_signed := true;
          h_cpuid_insn := fun _ => (0, 0, SSE4_2_FLAG, 0) |} [JsObject]
     = JsBoolean false.
Proof.
  split; [reflexivity|].
  apply (isSSE42Available_generic_false
           {| h_target := Generic LittleEndian; h_char_signed := true;
              h_cpuid_insn := fun _ => (0, 0, SSE4_2_FLAG, 0) |}
           LittleEndian [JsObject]).
  reflexivity.
Defined.

(** X14: on the x86 builds (MSVC, GNU x86-64, GNU i386) the detector
    answers exactly bit 20 of ECX of CPUID leaf 1, which is the bit that the
    otherwise unused mask [SSE4_2_FLAG] selects. *)
Theorem isSSE42Available_is_ecx_bit20 h :
  (forall o, h_target h <> Generic o) ->
  isSSE42Available h = Z.testbit (ecx_of (h_cpuid_insn h 1)) 20
  /\ isSSE42Available h
     = negb (Z.land (ecx_of (h_cpuid_insn h 1)) SSE4_2_FLAG =? 0).
Proof.
  intros Hx86.
  assert (E : isSSE42Available h = Z.testbit (ecx_of (h_cpuid_insn h 1)) 20).
  { unfold isSSE42Available, cpuid, ecx_of.
    destruct (h_target h) as [| | |o] eqn:Etarget;
      [ | | | elim (Hx86 o); reflexivity ];
      destruct (h_cpuid_insn h 1) as [[[a b] c] d]; cbn [nth];
      exact (bit20_test c). }
  split; [exact E|]. rewrite flag_mask_test. exact E.
Qed.

Lemma isSSE42Available_is_ecx_bit20_witness :
  (forall o, h_target x86_host <> Generic o)
  /\ isSSE42Available x86_host
     = Z.testbit (ecx_of (h_cpuid_insn x86_host 1)) 20
  /\ isSSE42Available x86_host
     = negb (Z.land (ecx_of (h_cpuid_insn x86_host 1)) SSE4_2_FLAG =? 0).
Proof.
  assert (H : forall o, h_target x86_host <> Generic o)
    by (intros o; discriminate).
  split; [exact H|].
  apply (isSSE42Available_is_ecx_bit20 x86_host H).
Defined.

(** * Properties of the dispatcher *)

Ltac run_dispatch :=
  unfold calculateCrc, initial_crc_of, arg, Uint32Value;
  cbn [List.length Nat.ltb Nat.leb nth].


(** The number of arguments is checked first.  A call without
    arguments returns the number 0, and a call with more than three
    arguments throws "Invalid number of arguments!", whatever the arguments
    are. *)
Lemma calculateCrc_argument_count h m hw :
  calculateCrc h m hw [] = Returns 0
  /\ forall a0 a1 a2 a3 rest,
       calculateCrc h m hw (a0 :: a1 :: a2 :: a3 :: rest)
       = ThrowsTypeError "Invalid number of arguments!".
Proof. split; [reflexivity | intros; reflexivity]. Qed.

(** X16: with one to three arguments, a first argument that is not a
    boolean throws the [useHardwareCrc] error whatever the other arguments
    are. *)
Theorem calculateCrc_flag_must_be_boolean h m hw a0 rest :
  (List.length rest <= 2)%nat ->
  (forall b, a0 <> JsBoolean b) ->
  calculateCrc h m hw (a0 :: rest)
  = ThrowsTypeError "useHardwareCrc isn't a boolean value as expected!".
Proof.
  intros Hlen Hnb.
  destruct rest as [|a1 [|a2 [|a3 rest]]];
    [| | | cbn [List.length] in Hlen; lia];
    run_dispatch; destruct a0; try reflexivity; elim (Hnb b); reflexivity.
Qed.

Lemma calculateCrc_flag_must_be_boolean_witness :
  (List.length [JsBuffer 64 9; JsNumber 0] <= 2)%nat
  /\ (forall b, JsNumber 1 <> JsBoolean b)
  /\ calculateCrc x86_host zero_mem (fun _ _ _ => 0)
       (JsNumber 1 :: [JsBuffer 64 9; JsNumber 0])
     = ThrowsTypeError "useHardwareCrc isn't a boolean value as expected!".
Proof.
  assert (H1 : (List.length [JsBuffer 64 9; JsNumber 0] <= 2)%nat)
    by (cbn [List.length]; lia).
  assert (H2 : forall b, JsNumber 1 <> JsBoolean b) by (intros b; discriminate).
  split; [exact H1|]. split; [exact H2|].
  apply (calculateCrc_flag_must_be_boolean x86_host zero_mem (fun _ _ _ => 0)
           (JsNumber 1) [JsBuffer 64 9; JsNumber 0] H1 H2).
Defined.

(** X17: the initial CRC is validated before the data.  With a boolean
    first argument and a third argument that is not a number, the call
    throws the initial-CRC error whatever the second argument is, a valid
    buffer and an object included. *)
Theorem calculateCrc_seed_checked_before_data h m hw b a1 a2 :
  (forall n, a2 <> JsNumber n) ->
  calculateCrc h m hw [JsBoolean b; a1; a2]
  = ThrowsTypeError "Initial CRC-32C is not an integer value as expected!".
Proof.
  intros Hnn. run_dispatch.
  destruct a2; try reflexivity. elim (Hnn n). reflexivity.
Qed.

Lemma calculateCrc_seed_checked_before_data_witness :
  (forall n, JsString [x31] <> JsNumber n)
  /\ calculateCrc x86_host zero_mem (fun _ _ _ => 0)
       [JsBoolean false; JsObject; JsString [x31]]
     = ThrowsTypeError "Initial CRC-32C is not an integer value as expected!".
Proof.
  assert (H : forall n, JsString [x31] <> JsNumber n) by (intros n; discriminate).
  split; [exact H|].
  apply (calculateCrc_seed_checked_before_data x86_host zero_mem
           (fun _ _ _ => 0) false JsObject (JsString [x31]) H).
Defined.

(** Text is never checksummed.  For a string as second argument,
    with either flag and with or without an initial CRC, neither engine is
    called and [crc] is returned without having been assigned: the outcome
    depends on none of the string, the flag and the initial CRC. *)
Lemma calculateCrc_string_not_computed h m hw b utf8 :
  calculateCrc h m hw [JsBoolean b; JsString utf8] = ReturnsIndeterminate
  /\ forall n,
       calculateCrc h m hw [JsBoolean b; JsString utf8; JsNumber n]
       = ReturnsIndeterminate.
Proof. split; [reflexivity | intros; reflexivity]. Qed.

(** Leaving the initial CRC out is passing 0.  For any first and
    second argument, the call with two arguments has the outcome of the call
    with the number 0 added as third. *)
Lemma calculateCrc_default_seed h m hw a0 a1 :
  calculateCrc h m hw [a0; a1] = calculateCrc h m hw [a0; a1; JsNumber 0].
Proof.
  run_dispatch. change (u32 0) with 0. reflexivity.
Qed.

(** * The bulk loop on a big-endian host *)

(** X18: what the native 64-bit load does on a big-endian host.  There
    one bulk iteration folds the eight bytes at [next] into the accumulator
    in reverse order, last byte first, where a little-endian host folds them
    first byte first. *)
Theorem bulk_step_big_endian_reverses h m crc next :
  host_order h = BigEndian ->
  is_u32 crc ->
  bulk_step h crc32cTable m crc next
  = crc32c_bytes crc (rev (load_bytes m next 8)).
Proof.
  intros Hbe Hc. unfold bulk_step, load_u64. rewrite Hbe.
  pose proof (word_of_bytes_bound (rev (load_bytes m next 8))) as Hw.
  rewrite length_rev, load_bytes_length in Hw.
  change (2 ^ (8 * Z.of_nat 8)) with (2 ^ 64) in Hw.
  assert (Hx : is_u64 (Z.lxor crc (word_of_bytes (rev (load_bytes m next 8))))).
  { apply is_u64_lxor; [apply is_u32_u64; exact Hc | exact Hw]. }
  rewrite (u64_id _ Hx), (fold8_reduce crc32cTable crc32cTable_reduces _ Hx).
  rewrite <- word_fold, length_rev, load_bytes_length. reflexivity.
Qed.

Lemma bulk_step_big_endian_reverses_witness :
  host_order be_host = BigEndian
  /\ is_u32 0xFFFFFFFF
  /\ bulk_step be_host crc32cTable (store 64 check_string zero_mem) 0xFFFFFFFF 64
     = crc32c_bytes 0xFFFFFFFF
         (rev (load_bytes (store 64 check_string zero_mem) 64 8)).
Proof.
  assert (H : is_u32 0xFFFFFFFF) by (unfold is_u32; lia).
  split; [reflexivity|]. split; [exact H|].
  apply (bulk_step_big_endian_reverses be_host
           (store 64 check_string zero_mem) 0xFFFFFFFF 64 eq_refl H).
Defined.
